(** * IqrSession: the session engine of the interactive query refinement loop

    A shallow embedding of [smqtk/iqr/iqr_session.py].  The session object is
    a record of its attributes, every method is a function from the session
    to the session it leaves behind, and the calls a method makes on its
    collaborators (the neighbor index and the relevancy index) are recorded
    as a list of events.

    The lock only serialises the methods; each method is modelled as the
    atomic step it is while the lock is held. *)

From Stdlib Require Import QArith Qcanon.
From stdpp Require Import base numbers gmap strings list fin_maps sorting.

Local Open Scope Z_scope.
#[local] Set Warnings "-clear-no-such-hyp".

(** ** Descriptor elements *)

(** A vector is the list that [vector().tolist()] yields.  Its entries are
    the finite values of a float, which are rational numbers; their order and
    equality are those of the rationals. *)
Abbreviation Vec := (list Qc).

Abbreviation Uid := string.

(** Modelled from the spec: the descriptor element class is not part of the
    sources at hand.  An element is the triple of its identifier, its type
    tag and its vector. *)
Record DescriptorElement := mkDescr {
  uuid : Uid;
  type_str : string;
  vector : Vec;
}.

Global Instance DescriptorElement_eq_dec : EqDecision DescriptorElement.
Proof. solve_decision. Defined.

(** Modelled from the spec: equality and hashing of elements go by identifier
    and type, so the identity of an element in a [set] is this pair. *)
Abbreviation DKey := (Uid * string)%type.

Definition d_key (d : DescriptorElement) : DKey := (uuid d, type_str d).

(** A Python [set] of elements holds one object for each identity: the key
    of the finite map is the identity and the value is the vector the held
    object carries.  [update] and [|] keep the object that is already there,
    which is the left-biased union of maps; [difference_update] removes by
    identity; [==] and [in] look at identities only. *)
Abbreviation DSet := (gmap DKey Vec).

Definition d_set_update (s t : DSet) : DSet := s ∪ t.
Definition d_set_difference_update (s t : DSet) : DSet := s ∖ t.
Definition d_set_or (s t : DSet) : DSet := s ∪ t.
Definition d_set_add (d : DescriptorElement) (s : DSet) : DSet :=
  s ∪ {[ d_key d := vector d ]}.
Definition d_set_eqb (s t : DSet) : bool := bool_decide (dom s = dom t).
Definition d_set_in (d : DescriptorElement) (s : DSet) : Prop :=
  d_key d ∈ dom s.
Global Instance d_set_in_dec d s : Decision (d_set_in d s).
Proof. unfold d_set_in. apply _. Defined.

(** Iteration over a set.  Python fixes no order; the model takes the order
    of [map_to_list], and no property below depends on it. *)
Definition d_set_iter (s : DSet) : list DescriptorElement :=
  (λ kv, mkDescr kv.1.1 kv.1.2 kv.2) <$> map_to_list s.

(** [set(iterable)] *)
Definition d_set_of_iterable (it : list DescriptorElement) : DSet :=
  foldl (λ s d, d_set_add d s) ∅ it.

(** ** Collaborators *)

(** Scored elements, as the items of the [results] dict or of a cached view. *)
Abbreviation Scored := (DescriptorElement * Qc)%type.

(** [nn_index.nn(p, n)[0]]: the neighbors of [p]. *)
Abbreviation NNIndex := (DescriptorElement → Z → list DescriptorElement).

(** The relevancy index that a configuration denotes: given the elements it
    was built over, [rank(pos, neg)] yields the items of the score mapping in
    the mapping's iteration order.  The keys of a mapping are distinct; the
    properties below hold of any list of items, so this is not assumed. *)
Abbreviation RankFn := (list DescriptorElement → DSet → DSet → list Scored).

(** A built relevancy index instance. *)
Record RelevancyIndex := mkRelIndex {
  ri_rank : RankFn;
  ri_indexed : list DescriptorElement;
}.

(** Calls made on the collaborators. *)
Inductive Event :=
  | EvNN (p : DescriptorElement) (n : Z)
  | EvBuildIndex (ds : list DescriptorElement)
  | EvRank (pos neg : DSet).

(** ** The session *)

Record IqrSession := mkSession {
  session_uuid : string;
  pos_seed_neighbors : Z;
  working_set : gmap Uid DescriptorElement;
  _wi_seeds_used : gset Uid;
  external_positive_descriptors : DSet;
  external_negative_descriptors : DSet;
  positive_descriptors : DSet;
  negative_descriptors : DSet;
  rank_contrib_pos : DSet;
  rank_contrib_pos_ext : DSet;
  rank_contrib_neg : DSet;
  rank_contrib_neg_ext : DSet;
  results : option (list Scored);
  _ordered_results : option (list Scored);
  _ordered_pos : option (list Scored);
  _ordered_neg : option (list Scored);
  _ordered_non_adj : option (list Scored);
  rel_index_config : RankFn;
  rel_index : option RelevancyIndex;
}.

(** [__init__] *)
Definition new_session (pos_seed_neighbors : Z) (rel_index_config : RankFn)
    (session_uid : string) : IqrSession :=
  {| session_uuid := session_uid;
     pos_seed_neighbors := pos_seed_neighbors;
     working_set := ∅;
     _wi_seeds_used := ∅;
     external_positive_descriptors := ∅;
     external_negative_descriptors := ∅;
     positive_descriptors := ∅;
     negative_descriptors := ∅;
     rank_contrib_pos := ∅;
     rank_contrib_pos_ext := ∅;
     rank_contrib_neg := ∅;
     rank_contrib_neg_ext := ∅;
     results := None;
     _ordered_results := None;
     _ordered_pos := None;
     _ordered_neg := None;
     _ordered_non_adj := None;
     rel_index_config := rel_index_config;
     rel_index := None |}.

(** Attribute assignment. *)
Definition set_external_positive (v : DSet) (s : IqrSession) : IqrSession :=
  mkSession (session_uuid s) (pos_seed_neighbors s) (working_set s)
    (_wi_seeds_used s) v (external_negative_descriptors s)
    (positive_descriptors s) (negative_descriptors s) (rank_contrib_pos s)
    (rank_contrib_pos_ext s) (rank_contrib_neg s) (rank_contrib_neg_ext s)
    (results s) (_ordered_results s) (_ordered_pos s) (_ordered_neg s)
    (_ordered_non_adj s) (rel_index_config s) (rel_index s).
Definition set_external_negative (v : DSet) (s : IqrSession) : IqrSession :=
  mkSession (session_uuid s) (pos_seed_neighbors s) (working_set s)
    (_wi_seeds_used s) (external_positive_descriptors s) v
    (positive_descriptors s) (negative_descriptors s) (rank_contrib_pos s)
    (rank_contrib_pos_ext s) (rank_contrib_neg s) (rank_contrib_neg_ext s)
    (results s) (_ordered_results s) (_ordered_pos s) (_ordered_neg s)
    (_ordered_non_adj s) (rel_index_config s) (rel_index s).
Definition set_positive (v : DSet) (s : IqrSession) : IqrSession :=
  mkSession (session_uuid s) (pos_seed_neighbors s) (working_set s)
    (_wi_seeds_used s) (external_positive_descriptors s)
    (external_negative_descriptors s) v (negative_descriptors s)
    (rank_contrib_pos s) (rank_contrib_pos_ext s) (rank_contrib_neg s)
    (rank_contrib_neg_ext s) (results s) (_ordered_results s) (_ordered_pos s)
    (_ordered_neg s) (_ordered_non_adj s) (rel_index_config s) (rel_index s).
Definition set_negative (v : DSet) (s : IqrSession) : IqrSession :=
  mkSession (session_uuid s) (pos_seed_neighbors s) (working_set s)
    (_wi_seeds_used s) (external_positive_descriptors s)
    (external_negative_descriptors s) (positive_descriptors s) v
    (rank_contrib_pos s) (rank_contrib_pos_ext s) (rank_contrib_neg s)
    (rank_contrib_neg_ext s) (results s) (_ordered_results s) (_ordered_pos s)
    (_ordered_neg s) (_ordered_non_adj s) (rel_index_config s) (rel_index s).
Definition set_ordered_results (v : option (list Scored)) (s : IqrSession)
    : IqrSession :=
  mkSession (session_uuid s) (pos_seed_neighbors s) (working_set s)
    (_wi_seeds_used s) (external_positive_descriptors s)
    (external_negative_descriptors s) (positive_descriptors s)
    (negative_descriptors s) (rank_contrib_pos s) (rank_contrib_pos_ext s)
    (rank_contrib_neg s) (rank_contrib_neg_ext s) (results s) v
    (_ordered_pos s) (_ordered_neg s) (_ordered_non_adj s)
    (rel_index_config s) (rel_index s).
Definition set_ordered_pos (v : option (list Scored)) (s : IqrSession)
    : IqrSession :=
  mkSession (session_uuid s) (pos_seed_neighbors s) (working_set s)
    (_wi_seeds_used s) (external_positive_descriptors s)
    (external_negative_descriptors s) (positive_descriptors s)
    (negative_descriptors s) (rank_contrib_pos s) (rank_contrib_pos_ext s)
    (rank_contrib_neg s) (rank_contrib_neg_ext s) (results s)
    (_ordered_results s) v (_ordered_neg s) (_ordered_non_adj s)
    (rel_index_config s) (rel_index s).
Definition set_ordered_neg (v : option (list Scored)) (s : IqrSession)
    : IqrSession :=
  mkSession (session_uuid s) (pos_seed_neighbors s) (working_set s)
    (_wi_seeds_used s) (external_positive_descriptors s)
    (external_negative_descriptors s) (positive_descriptors s)
    (negative_descriptors s) (rank_contrib_pos s) (rank_contrib_pos_ext s)
    (rank_contrib_neg s) (rank_contrib_neg_ext s) (results s)
    (_ordered_results s) (_ordered_pos s) v (_ordered_non_adj s)
    (rel_index_config s) (rel_index s).
Definition set_ordered_non_adj (v : option (list Scored)) (s : IqrSession)
    : IqrSession :=
  mkSession (session_uuid s) (pos_seed_neighbors s) (working_set s)
    (_wi_seeds_used s) (external_positive_descriptors s)
    (external_negative_descriptors s) (positive_descriptors s)
    (negative_descriptors s) (rank_contrib_pos s) (rank_contrib_pos_ext s)
    (rank_contrib_neg s) (rank_contrib_neg_ext s) (results s)
    (_ordered_results s) (_ordered_pos s) (_ordered_neg s) v
    (rel_index_config s) (rel_index s).

Definition set_working_set (v : gmap Uid DescriptorElement) (s : IqrSession)
    : IqrSession :=
  mkSession (session_uuid s) (pos_seed_neighbors s) v (_wi_seeds_used s)
    (external_positive_descriptors s) (external_negative_descriptors s)
    (positive_descriptors s) (negative_descriptors s) (rank_contrib_pos s)
    (rank_contrib_pos_ext s) (rank_contrib_neg s) (rank_contrib_neg_ext s)
    (results s) (_ordered_results s) (_ordered_pos s) (_ordered_neg s)
    (_ordered_non_adj s) (rel_index_config s) (rel_index s).
Definition set_wi_seeds_used (v : gset Uid) (s : IqrSession) : IqrSession :=
  mkSession (session_uuid s) (pos_seed_neighbors s) (working_set s) v
    (external_positive_descriptors s) (external_negative_descriptors s)
    (positive_descriptors s) (negative_descriptors s) (rank_contrib_pos s)
    (rank_contrib_pos_ext s) (rank_contrib_neg s) (rank_contrib_neg_ext s)
    (results s) (_ordered_results s) (_ordered_pos s) (_ordered_neg s)
    (_ordered_non_adj s) (rel_index_config s) (rel_index s).
Definition set_rel_index (v : option RelevancyIndex) (s : IqrSession)
    : IqrSession :=
  mkSession (session_uuid s) (pos_seed_neighbors s) (working_set s)
    (_wi_seeds_used s) (external_positive_descriptors s)
    (external_negative_descriptors s) (positive_descriptors s)
    (negative_descriptors s) (rank_contrib_pos s) (rank_contrib_pos_ext s)
    (rank_contrib_neg s) (rank_contrib_neg_ext s) (results s)
    (_ordered_results s) (_ordered_pos s) (_ordered_neg s)
    (_ordered_non_adj s) (rel_index_config s) v.

(** ** Outcomes of the methods that can raise or that call a collaborator *)

(** The spec's names of the errors.  In the source the first three are
    [RuntimeError]s, told apart by their message, the fourth is the
    [ValueError] of [set_state_bytes] and the fifth is the failed [assert] of
    [load_descriptor]. *)
Inductive Error :=
  | NoPositiveExamples
  | NotInitialized
  | NoPositiveAdjudications
  | InvalidStateArchive
  | VectorMismatch.

Global Instance Error_eq_dec : EqDecision Error.
Proof. solve_decision. Defined.

(** What a call leaves behind: the exception it raised, if any, the session
    as it is when the call returns or raises, and the collaborator calls it
    made, in order. *)
Record Outcome := mkOutcome {
  raised : option Error;
  after : IqrSession;
  calls : list Event;
}.

(** ** The adjudication ledger *)

(** [external_descriptors(positive, negative)]; the arguments are the sets
    that lines 193-194 make of the iterables. *)
Definition external_descriptors (positive negative : DSet) (s : IqrSession)
    : IqrSession :=
  let s := set_external_positive
             (d_set_update (external_positive_descriptors s) positive) s in
  let s := set_external_positive
             (d_set_difference_update (external_positive_descriptors s)
                negative) s in
  let s := set_external_negative
             (d_set_update (external_negative_descriptors s) negative) s in
  set_external_negative
    (d_set_difference_update (external_negative_descriptors s) positive) s.

(** [adjudicate(new_positives, new_negatives, un_positives, un_negatives)];
    the arguments are the sets that lines 238-241 make of the iterables. *)
Definition adjudicate (new_positives new_negatives un_positives
    un_negatives : DSet) (s : IqrSession) : IqrSession :=
  let pos_before := positive_descriptors s in
  let s := set_positive
             (d_set_update (positive_descriptors s) new_positives) s in
  let s := set_positive
             (d_set_difference_update (positive_descriptors s) un_positives)
             s in
  let s := set_positive
             (d_set_difference_update (positive_descriptors s) new_negatives)
             s in
  let pos_changed := negb (d_set_eqb pos_before (positive_descriptors s)) in
  let s := if pos_changed then set_ordered_pos None s else s in
  let neg_before := negative_descriptors s in
  let s := set_negative
             (d_set_update (negative_descriptors s) new_negatives) s in
  let s := set_negative
             (d_set_difference_update (negative_descriptors s) un_negatives)
             s in
  let s := set_negative
             (d_set_difference_update (negative_descriptors s) new_positives)
             s in
  let neg_changed := negb (d_set_eqb neg_before (negative_descriptors s)) in
  let s := if neg_changed then set_ordered_neg None s else s in
  if pos_changed || neg_changed then set_ordered_non_adj None s else s.

(** ** The working set builder *)

(** Modelled from the spec: the in-memory descriptor set is not part of the
    sources at hand.  It is keyed by identifier, and a bulk insert stores
    each element under its identifier. *)
Definition add_many_descriptors (ds : list DescriptorElement)
    (ws : gmap Uid DescriptorElement) : gmap Uid DescriptorElement :=
  foldl (λ m d, <[uuid d := d]> m) ws ds.

Definition iterdescriptors (ws : gmap Uid DescriptorElement)
    : list DescriptorElement :=
  (map_to_list ws).*2.

(** One turn of the loop of lines 299-306; the accumulator is the session,
    the [updated] flag and the calls made so far. *)
Definition update_working_set_visit (nn_index : NNIndex)
    (acc : IqrSession * bool * list Event) (p : DescriptorElement)
    : IqrSession * bool * list Event :=
  let '(s, updated, tr) := acc in
  if decide (uuid p ∉ _wi_seeds_used s) then
    let found := nn_index p (pos_seed_neighbors s) in
    let s' := set_working_set (add_many_descriptors found (working_set s)) s in
    let s' := set_wi_seeds_used ({[ uuid p ]} ∪ _wi_seeds_used s') s' in
    (s', true, tr ++ [EvNN p (pos_seed_neighbors s)])
  else (s, updated, tr).

(** [update_working_set(nn_index)] *)
Definition update_working_set (nn_index : NNIndex) (s : IqrSession)
    : Outcome :=
  let pos_examples :=
    d_set_or (external_positive_descriptors s) (positive_descriptors s) in
  if decide (size pos_examples = 0%nat) then
    mkOutcome (Some NoPositiveExamples) s []
  else
    let '(s1, updated, tr) :=
      foldl (update_working_set_visit nn_index) (s, false, [])
        (d_set_iter pos_examples) in
    if updated then
      let ds := iterdescriptors (working_set s1) in
      let s2 := set_rel_index (Some (mkRelIndex (rel_index_config s1) ds)) s1 in
      mkOutcome None s2 (tr ++ [EvBuildIndex ds])
    else mkOutcome None s1 tr.

(** ** The refinement engine *)

(** The two sets that [refine] hands to [rank] (lines 333-334). *)
Definition refine_pos (s : IqrSession) : DSet :=
  d_set_or (positive_descriptors s) (external_positive_descriptors s).
Definition refine_neg (s : IqrSession) : DSet :=
  d_set_or (negative_descriptors s) (external_negative_descriptors s).

(** Modelled from the spec: the relevancy index class is not part of the
    sources at hand.  The spec's ranker is built over a candidate set; as a
    Python object it has a length ([__len__], which the index interface
    gives as its [count()]), the number of elements it was built over. *)
Definition rel_index_len (ri : RelevancyIndex) : nat := length (ri_indexed ri).

(** [not self.rel_index]: Python's [not] holds of [None] and of an object
    whose length is zero, so also of an index built over no element. *)
Definition rel_index_falsy (o : option RelevancyIndex) : bool :=
  match o with
  | None => true
  | Some ri => bool_decide (rel_index_len ri = 0%nat)
  end.

(** [refine()] *)
Definition refine (s : IqrSession) : Outcome :=
  if rel_index_falsy (rel_index s) then mkOutcome (Some NotInitialized) s []
  else
  match rel_index s with
  | None => (* not reached: [None] is falsy *)
    mkOutcome (Some NotInitialized) s []
  | Some ri =>
    let pos := refine_pos s in
    let neg := refine_neg s in
    if decide (size pos = 0%nat) then
      mkOutcome (Some NoPositiveAdjudications) s []
    else
      let element_probability_map := ri_rank ri (ri_indexed ri) pos neg in
      mkOutcome None
        {| session_uuid := session_uuid s;
           pos_seed_neighbors := pos_seed_neighbors s;
           working_set := working_set s;
           _wi_seeds_used := _wi_seeds_used s;
           external_positive_descriptors := external_positive_descriptors s;
           external_negative_descriptors := external_negative_descriptors s;
           positive_descriptors := positive_descriptors s;
           negative_descriptors := negative_descriptors s;
           rank_contrib_pos := positive_descriptors s;
           rank_contrib_pos_ext := external_positive_descriptors s;
           rank_contrib_neg := negative_descriptors s;
           rank_contrib_neg_ext := external_negative_descriptors s;
           results := Some element_probability_map;
           _ordered_results := None;
           _ordered_pos := None;
           _ordered_neg := None;
           _ordered_non_adj := None;
           rel_index_config := rel_index_config s;
           rel_index := rel_index s |}
        [EvRank pos neg]
  end.

(** ** The result view cache *)

(** [sorted(items, key=lambda p: p[1], reverse=True)]: the stable sort by
    descending score; items of equal score keep their order. *)
Fixpoint insert_by_score (x : Scored) (l : list Scored) : list Scored :=
  match l with
  | [] => [x]
  | y :: l' =>
    if decide (y.2 ≤ x.2)%Qc then x :: y :: l' else y :: insert_by_score x l'
  end.

Definition sorted_by_score (items : list Scored) : list Scored :=
  foldr insert_by_score [] items.

(** [ordered_results()]: the list returned and the session left behind. *)
Definition ordered_results (s : IqrSession) : list Scored * IqrSession :=
  match _ordered_results s with
  | Some cached => (cached, s)
  | None =>
    match results s with
    | None => ([], s)
    | Some result_items =>
      let r := sorted_by_score result_items in
      (r, set_ordered_results (Some r) s)
    end
  end.

(** [get_positive_adjudication_relevancy()] *)
Definition get_positive_adjudication_relevancy (s : IqrSession)
    : list Scored * IqrSession :=
  match _ordered_pos s with
  | Some cached => (cached, s)
  | None =>
    let rank_contrib_pos' :=
      d_set_or (rank_contrib_pos s) (rank_contrib_pos_ext s) in
    let '(all, s) := ordered_results s in
    let r := filter (λ t, d_set_in t.1 rank_contrib_pos') all in
    (r, set_ordered_pos (Some r) s)
  end.

(** [get_negative_adjudication_relevancy()] *)
Definition get_negative_adjudication_relevancy (s : IqrSession)
    : list Scored * IqrSession :=
  match _ordered_neg s with
  | Some cached => (cached, s)
  | None =>
    let rank_contrib_neg' :=
      d_set_or (rank_contrib_neg s) (rank_contrib_neg_ext s) in
    let '(all, s) := ordered_results s in
    let r := filter (λ t, d_set_in t.1 rank_contrib_neg') all in
    (r, set_ordered_neg (Some r) s)
  end.

(** [get_unadjudicated_relevancy()] *)
Definition get_unadjudicated_relevancy (s : IqrSession)
    : list Scored * IqrSession :=
  match _ordered_non_adj s with
  | Some cached => (cached, s)
  | None =>
    let pos_and_neg :=
      d_set_or (d_set_or (d_set_or (rank_contrib_pos s)
                            (rank_contrib_pos_ext s))
                  (rank_contrib_neg s))
        (rank_contrib_neg_ext s) in
    let '(all, s) := ordered_results s in
    let r := filter (λ t, ¬ d_set_in t.1 pos_and_neg) all in
    (r, set_ordered_non_adj (Some r) s)
  end.

(** ** Lifecycle *)

(** [reset()] *)
Definition reset (s : IqrSession) : IqrSession :=
  {| session_uuid := session_uuid s;
     pos_seed_neighbors := pos_seed_neighbors s;
     working_set := ∅;
     _wi_seeds_used := ∅;
     external_positive_descriptors := ∅;
     external_negative_descriptors := ∅;
     positive_descriptors := ∅;
     negative_descriptors := ∅;
     rank_contrib_pos := ∅;
     rank_contrib_pos_ext := ∅;
     rank_contrib_neg := ∅;
     rank_contrib_neg_ext := ∅;
     results := None;
     _ordered_results := None;
     _ordered_pos := None;
     _ordered_neg := None;
     _ordered_non_adj := None;
     rel_index_config := rel_index_config s;
     rel_index := None |}.

(** ** State persistence *)

(** The archive is modelled after decoding: a zip archive is the list of its
    entries, and an entry holds the JSON document that [json.loads] reads
    from it.  [zipfile] and [json] are taken to read back what they wrote.
    The documents modelled are those of the shape [get_state_bytes] writes,
    four fields that are lists of triples.  An entry of another content (no
    JSON, a field missing, an item that is no triple), on which the source
    raises a [ValueError], [KeyError] or [TypeError] of the libraries, some
    of them after its [reset], is outside this model. *)
Abbreviation Triple := (Uid * string * Vec)%type.

Record StateDoc := mkStateDoc {
  doc_pos : list Triple;
  doc_neg : list Triple;
  doc_external_pos : list Triple;
  doc_external_neg : list Triple;
}.

Abbreviation Archive := (list (string * StateDoc)).

Definition STATE_ZIP_FILENAME : string := "iqr_state.json".

Definition namelist (z : Archive) : list string := z.*1.

(** [z.read(name)]: of the entries of that name the last one is read; there
    is one whenever the name is in [namelist]. *)
Fixpoint z_read (name : string) (z : Archive) : option StateDoc :=
  match z with
  | [] => None
  | (n, doc) :: z' =>
    match z_read name z' with
    | Some later => Some later
    | None => if decide (n = name) then Some doc else None
    end
  end.

Definition d_set_to_list (d_set : DSet) : list Triple :=
  (λ d, (uuid d, type_str d, vector d)) <$> d_set_iter d_set.

(** [get_state_bytes()]; it leaves the session as it is. *)
Definition get_state_bytes (s : IqrSession) : Archive :=
  let pos_d := d_set_to_list (positive_descriptors s) in
  let neg_d := d_set_to_list (negative_descriptors s) in
  let ext_pos_d := d_set_to_list (external_positive_descriptors s) in
  let ext_neg_d := d_set_to_list (external_negative_descriptors s) in
  [(STATE_ZIP_FILENAME,
    {| doc_pos := pos_d; doc_neg := neg_d;
       doc_external_pos := ext_pos_d; doc_external_neg := ext_neg_d |})].

(** The descriptor factory: the element that [new_descriptor(type, uid)]
    makes has that type and identifier; the factory is given by the vector
    that element already carries, [None] when [has_vector()] is false. *)
Abbreviation DescriptorElementFactory := (string → Uid → option Vec).

(** [load_descriptor(_uid, _type_str, vec_list)] *)
Definition load_descriptor (descriptor_factory : DescriptorElementFactory)
    (_uid : Uid) (_type_str : string) (vec_list : Vec)
    : Error + DescriptorElement :=
  match descriptor_factory _type_str _uid with
  | Some v =>
    if decide (v = vec_list) then inr (mkDescr _uid _type_str v)
    else inl VectorMismatch
  | None => inr (mkDescr _uid _type_str vec_list)
  end.

(** The inner loop of lines 600-602 over one source list: the exception that
    stopped it, if any, and the target set as it is by then. *)
Fixpoint load_source (descriptor_factory : DescriptorElementFactory)
    (source : list Triple) (target : DSet) : option Error * DSet :=
  match source with
  | [] => (None, target)
  | (uid, ty, vector_list) :: source' =>
    match load_descriptor descriptor_factory uid ty vector_list with
    | inl err => (Some err, target)
    | inr e => load_source descriptor_factory source' (d_set_add e target)
    end
  end.

(** [set_state_bytes(b, descriptor_factory)] *)
Definition set_state_bytes (b : Archive)
    (descriptor_factory : DescriptorElementFactory) (s : IqrSession)
    : Outcome :=
  if decide (STATE_ZIP_FILENAME ∉ namelist b) then
    mkOutcome (Some InvalidStateArchive) s []
  else
    match z_read STATE_ZIP_FILENAME b with
    | None => (* not reached: the name is in the name list *)
      mkOutcome (Some InvalidStateArchive) s []
    | Some state =>
      let s := reset s in
      let '(e1, t1) := load_source descriptor_factory (doc_external_pos state)
                         (external_positive_descriptors s) in
      let s := set_external_positive t1 s in
      match e1 with
      | Some err => mkOutcome (Some err) s []
      | None =>
      let '(e2, t2) := load_source descriptor_factory (doc_external_neg state)
                         (external_negative_descriptors s) in
      let s := set_external_negative t2 s in
      match e2 with
      | Some err => mkOutcome (Some err) s []
      | None =>
      let '(e3, t3) := load_source descriptor_factory (doc_pos state)
                         (positive_descriptors s) in
      let s := set_positive t3 s in
      match e3 with
      | Some err => mkOutcome (Some err) s []
      | None =>
      let '(e4, t4) := load_source descriptor_factory (doc_neg state)
                         (negative_descriptors s) in
      let s := set_negative t4 s in
      mkOutcome e4 s []
      end end end
    end.

(** ** Call sequences *)

(** The calls a client can make on a session. *)
Inductive Call :=
  | CallExternalDescriptors (positive negative : DSet)
  | CallAdjudicate (new_positives new_negatives un_positives
                      un_negatives : DSet)
  | CallUpdateWorkingSet (nn_index : NNIndex)
  | CallRefine
  | CallOrderedResults
  | CallGetPositiveAdjudicationRelevancy
  | CallGetNegativeAdjudicationRelevancy
  | CallGetUnadjudicatedRelevancy
  | CallReset
  | CallGetStateBytes
  | CallSetStateBytes (b : Archive)
      (descriptor_factory : DescriptorElementFactory).

Definition call (c : Call) (s : IqrSession) : Outcome :=
  match c with
  | CallExternalDescriptors p n => mkOutcome None (external_descriptors p n s) []
  | CallAdjudicate np nn up un => mkOutcome None (adjudicate np nn up un s) []
  | CallUpdateWorkingSet nn_index => update_working_set nn_index s
  | CallRefine => refine s
  | CallOrderedResults => mkOutcome None (ordered_results s).2 []
  | CallGetPositiveAdjudicationRelevancy =>
    mkOutcome None (get_positive_adjudication_relevancy s).2 []
  | CallGetNegativeAdjudicationRelevancy =>
    mkOutcome None (get_negative_adjudication_relevancy s).2 []
  | CallGetUnadjudicatedRelevancy =>
    mkOutcome None (get_unadjudicated_relevancy s).2 []
  | CallReset => mkOutcome None (reset s) []
  | CallGetStateBytes => mkOutcome None s []
  | CallSetStateBytes b f => set_state_bytes b f s
  end.

(** A client's run: the calls are made in order, whether or not one raises;
    the result is the session at the end and all collaborator calls made. *)
Definition run (cs : list Call) (s : IqrSession) : IqrSession * list Event :=
  foldl (λ acc c, let o := call c acc.1 in (after o, acc.2 ++ calls o))
    (s, []) cs.

(** Calls that empty the bookkeeping of used seeds. *)
Definition resets (c : Call) : bool :=
  match c with
  | CallReset | CallSetStateBytes _ _ => true
  | _ => false
  end.

(** Calls on the ledger. *)
Definition ledger_call (c : Call) : bool :=
  match c with
  | CallExternalDescriptors _ _ | CallAdjudicate _ _ _ _ => true
  | _ => false
  end.

(** ** The vocabulary of the properties *)

(** The two mutual exclusions the ledger keeps. *)
Definition ledger_exclusive (s : IqrSession) : Prop :=
  dom (positive_descriptors s) ## dom (negative_descriptors s) ∧
  dom (external_positive_descriptors s) ##
    dom (external_negative_descriptors s).

(** [a] may stand before [b] in a view: its score is not the smaller one. *)
Definition score_ge (a b : Scored) : Prop := (b.2 ≤ a.2)%Qc.

(** The cached view of all results, when there is one, is the sort of the
    current scores. *)
Definition cache_coherent (s : IqrSession) : Prop :=
  match _ordered_results s with
  | None => True
  | Some cached =>
    ∃ items, results s = Some items ∧ cached = sorted_by_score items
  end.

(** The identifiers of the seeds the neighbor index was queried with. *)
Definition queried_seeds (tr : list Event) : list Uid :=
  omap (λ e, match e with EvNN p _ => Some (uuid p) | _ => None end) tr.

(** What the loop keeps true of the session and the calls made so far, for a
    fixed set [S0] of seeds used before the loop: no seed is queried twice,
    every queried seed is marked as used and was not in [S0]. *)
Definition loop_inv (S0 : gset Uid) (acc : IqrSession * bool * list Event)
    : Prop :=
  NoDup (queried_seeds acc.2) ∧
  (∀ u, u ∈ queried_seeds acc.2 → u ∈ _wi_seeds_used acc.1.1 ∧ u ∉ S0) ∧
  S0 ⊆ _wi_seeds_used acc.1.1.

(** The identity of a stored triple. *)
Definition triple_key (x : Triple) : DKey := (x.1.1, x.1.2).

(** The factory's element for a triple carries no vector or the triple's. *)
Definition loads_cleanly (factory : DescriptorElementFactory) (x : Triple)
    : Prop :=
  factory x.1.2 x.1.1 = None ∨ factory x.1.2 x.1.1 = Some x.2.

Global Instance loads_cleanly_dec factory x : Decision (loads_cleanly factory x).
Proof. unfold loads_cleanly. apply _. Defined.

(** The triples of a state document in the order they are loaded. *)
Definition doc_load_order (state : StateDoc) : list Triple :=
  doc_external_pos state ++ doc_external_neg state ++ doc_pos state
  ++ doc_neg state.

(** The longest prefix of a list of triples that loads without a mismatch:
    what the loop of lines 600-602 gets through. *)
Fixpoint clean_prefix (factory : DescriptorElementFactory) (l : list Triple)
    : list Triple :=
  match l with
  | [] => []
  | x :: l' =>
    if decide (loads_cleanly factory x) then x :: clean_prefix factory l'
    else []
  end.

(** What is loaded of a field when the import stops at the first mismatch:
    its clean prefix when every triple of the fields loaded before it loads
    cleanly, and nothing when the import stopped before it. *)
Definition loaded_part (factory : DescriptorElementFactory)
    (before field : list Triple) : list Triple :=
  if decide (Forall (loads_cleanly factory) before)
  then clean_prefix factory field else [].

(** The set that adding the elements of the triples one by one gives: an
    identity listed again keeps the vector of its first listing. *)
Definition d_set_of_triples (l : list Triple) : DSet :=
  list_to_map ((λ x, (triple_key x, x.2)) <$> l).

(** ** An example session, in which one element is judged both ways *)

Definition ex_x : DescriptorElement := mkDescr "x" "t" [Q2Qc 1].

(** A neighbor index in which every element is its own only neighbor. *)
Definition ex_nn_index : NNIndex := λ p n, [p].

(** A relevancy index that scores every indexed element 1. *)
Definition ex_rank : RankFn := λ ds pos neg, (λ d, (d, Q2Qc 1)) <$> ds.

Definition ex_ledger_calls : list Call :=
  [CallAdjudicate (d_set_of_iterable [ex_x]) ∅ ∅ ∅;
   CallExternalDescriptors ∅ (d_set_of_iterable [ex_x])].

(** [x] is adjudicated positive, then given as an external negative, then
    the working set is built. *)
Definition ex_session : IqrSession :=
  (run (ex_ledger_calls ++ [CallUpdateWorkingSet ex_nn_index])
     (new_session 2 ex_rank "sid")).1.

(** A factory over a store that holds another vector for every identity. *)
Definition ex_stale_factory : DescriptorElementFactory :=
  λ ty u, Some [Q2Qc 0].

(** A factory of fresh in-memory elements, which carry no vector. *)
Definition ex_memory_factory : DescriptorElementFactory := λ ty u, None.

(** ** The scenario of the neighbor stub *)

(** The seed [A] has the neighbors [B] and [C]; the relevancy stub yields [C]
    with score 2/10 before [B] with score 9/10. *)
Definition sc_A : DescriptorElement := mkDescr "A" "t" [Q2Qc 1].
Definition sc_B : DescriptorElement := mkDescr "B" "t" [Q2Qc (1 # 2)].
Definition sc_C : DescriptorElement := mkDescr "C" "t" [Q2Qc (1 # 3)].

Definition sc_nn_index : NNIndex :=
  λ p n, if decide (uuid p = "A") then [sc_B; sc_C] else [].

Definition sc_rank : RankFn :=
  λ ds pos neg, [(sc_C, Q2Qc (2 # 10)); (sc_B, Q2Qc (9 # 10))].

Definition sc_session : IqrSession :=
  (run [CallAdjudicate (d_set_of_iterable [sc_A]) ∅ ∅ ∅;
        CallUpdateWorkingSet sc_nn_index]
     (new_session 2 sc_rank "sid")).1.

(** ** A neighbor index without neighbors *)



(** ** An archive with a conflicting triple *)

(** A state document whose positive field lists [A], then [B], then [C]. *)
Definition ex_doc_abc : StateDoc :=
  {| doc_pos := [("A", "t", [Q2Qc 1]); ("B", "t", [Q2Qc 1]);
                 ("C", "t", [Q2Qc 1])];
     doc_neg := [("D", "t", [Q2Qc 1])];
     doc_external_pos := [("E", "t", [Q2Qc 1])];
     doc_external_neg := [] |}.

(** The archive that holds this document under the state file's name. *)
Definition ex_archive_abc : Archive := [(STATE_ZIP_FILENAME, ex_doc_abc)].

(** A factory over a store that holds another vector for [B] only. *)
Definition ex_b_factory : DescriptorElementFactory :=
  λ ty u, if decide (u = "B") then Some [Q2Qc 0] else None.

(** * Properties *)

(** ** Call sequences, one call at a time *)

Lemma run_nil s : run [] s = (s, []).
Proof. reflexivity. Qed.

Lemma run_snoc cs c s :
  run (cs ++ [c]) s =
  (after (call c (run cs s).1), (run cs s).2 ++ calls (call c (run cs s).1)).
Proof. unfold run. by rewrite foldl_app. Qed.

Lemma forallb_snoc {A} (f : A → bool) l x :
  forallb f (l ++ [x]) = true ↔ forallb f l = true ∧ f x = true.
Proof.
  rewrite forallb_app. simpl. rewrite andb_true_r.
  apply andb_true_iff.
Qed.

Lemma forallb_take {A} (f : A → bool) l n :
  forallb f l = true → forallb f (take n l) = true.
Proof.
  rewrite <-(take_drop n l) at 1. rewrite forallb_app.
  by intros [H _]%andb_true_iff.
Qed.

(** ** The ledger *)

(** Case analysis on every conditional of the goal. *)
Ltac split_ifs :=
  repeat match goal with
         | |- context [if ?b then _ else _] => destruct b; simpl
         end.

(** What [adjudicate] and [external_descriptors] leave in the four sets. *)
Lemma adjudicate_positive np nn up un s :
  positive_descriptors (adjudicate np nn up un s) =
  ((positive_descriptors s ∪ np) ∖ up) ∖ nn.
Proof.
  unfold adjudicate. split_ifs; reflexivity.
Qed.

Lemma adjudicate_negative np nn up un s :
  negative_descriptors (adjudicate np nn up un s) =
  ((negative_descriptors s ∪ nn) ∖ un) ∖ np.
Proof.
  unfold adjudicate. split_ifs; reflexivity.
Qed.

Lemma adjudicate_external np nn up un s :
  external_positive_descriptors (adjudicate np nn up un s) =
    external_positive_descriptors s ∧
  external_negative_descriptors (adjudicate np nn up un s) =
    external_negative_descriptors s.
Proof.
  unfold adjudicate. split_ifs; done.
Qed.

Lemma external_descriptors_sets p n s :
  external_positive_descriptors (external_descriptors p n s) =
    (external_positive_descriptors s ∪ p) ∖ n ∧
  external_negative_descriptors (external_descriptors p n s) =
    (external_negative_descriptors s ∪ n) ∖ p ∧
  positive_descriptors (external_descriptors p n s) = positive_descriptors s ∧
  negative_descriptors (external_descriptors p n s) = negative_descriptors s.
Proof. done. Qed.

Lemma new_session_exclusive n cfg uid :
  ledger_exclusive (new_session n cfg uid).
Proof. split; simpl; set_solver. Qed.

Lemma adjudicate_exclusive np nn up un s :
  ledger_exclusive s → ledger_exclusive (adjudicate np nn up un s).
Proof.
  intros [Hin Hex]. unfold ledger_exclusive.
  rewrite adjudicate_positive, adjudicate_negative.
  destruct (adjudicate_external np nn up un s) as [-> ->].
  split; [|done].
  rewrite !dom_difference_L, !dom_union_L. set_solver.
Qed.

Lemma external_descriptors_exclusive p n s :
  ledger_exclusive s → ledger_exclusive (external_descriptors p n s).
Proof.
  intros [Hin Hex]. unfold ledger_exclusive.
  destruct (external_descriptors_sets p n s) as (-> & -> & -> & ->).
  split; [done|].
  rewrite !dom_difference_L, !dom_union_L. set_solver.
Qed.

Lemma ledger_call_exclusive c s :
  ledger_call c = true → ledger_exclusive s →
  ledger_exclusive (after (call c s)).
Proof.
  destruct c; try discriminate; intros _ H; simpl.
  - by apply external_descriptors_exclusive.
  - by apply adjudicate_exclusive.
Qed.

Lemma ledger_run_exclusive cs s :
  forallb ledger_call cs = true → ledger_exclusive s →
  ledger_exclusive (run cs s).1.
Proof.
  induction cs as [|c cs IH] using rev_ind; intros Hcs Hs; [done|].
  apply forallb_snoc in Hcs as [Hcs Hc].
  rewrite run_snoc. simpl. apply ledger_call_exclusive; auto.
Qed.

(** C1: in a session that starts empty, after each call of any sequence of
    [adjudicate] and [external_descriptors] calls (that is, after every
    prefix of the sequence) no element is both in the positive and in the
    negative set, and none is both in the external positive and in the
    external negative set. *)
Theorem ledger_mutual_exclusion (cs : list Call) (k : nat) (n : Z)
    (cfg : RankFn) (uid : string) :
  forallb ledger_call cs = true →
  let s := (run (take k cs) (new_session n cfg uid)).1 in
  positive_descriptors s ∩ negative_descriptors s = ∅ ∧
  dom (positive_descriptors s) ∩ dom (negative_descriptors s) = ∅ ∧
  external_positive_descriptors s ∩ external_negative_descriptors s = ∅ ∧
  dom (external_positive_descriptors s) ∩
    dom (external_negative_descriptors s) = ∅.
Proof.
  intros Hcs s.
  assert (ledger_exclusive s) as [Hin Hex].
  { apply ledger_run_exclusive; [by apply forallb_take|].
    apply new_session_exclusive. }
  assert (∀ a b : DSet, dom a ## dom b → a ∩ b = ∅) as Hmap.
  { intros a b Hab. apply map_eq. intros i.
    rewrite lookup_intersection, lookup_empty.
    destruct (a !! i) eqn:Ha; [|done].
    destruct (b !! i) eqn:Hb; [|done].
    exfalso. apply (Hab i); apply elem_of_dom; eauto. }
  repeat split; [by apply Hmap|set_solver|by apply Hmap|set_solver].
Qed.

(** C4: [adjudicate] leaves the positive set equal to the old one plus the
    new positives, minus the un-positives, minus the new negatives, and the
    negative set symmetrically, both as sets of element identities and with
    the held objects; an element given both as new positive and as new
    negative is in neither set afterwards. *)
Theorem adjudicate_set_algebra (new_positives new_negatives un_positives
    un_negatives : DSet) (s : IqrSession) :
  let s' := adjudicate new_positives new_negatives un_positives
              un_negatives s in
  dom (positive_descriptors s') =
    ((dom (positive_descriptors s) ∪ dom new_positives) ∖ dom un_positives)
      ∖ dom new_negatives ∧
  dom (negative_descriptors s') =
    ((dom (negative_descriptors s) ∪ dom new_negatives) ∖ dom un_negatives)
      ∖ dom new_positives ∧
  positive_descriptors s' =
    ((positive_descriptors s ∪ new_positives) ∖ un_positives)
      ∖ new_negatives ∧
  negative_descriptors s' =
    ((negative_descriptors s ∪ new_negatives) ∖ un_negatives)
      ∖ new_positives ∧
  (∀ d : DescriptorElement,
     d_set_in d new_positives → d_set_in d new_negatives →
     ¬ d_set_in d (positive_descriptors s') ∧
     ¬ d_set_in d (negative_descriptors s')).
Proof.
  intros s'. subst s'. unfold d_set_in.
  rewrite adjudicate_positive, adjudicate_negative.
  rewrite !dom_difference_L, !dom_union_L.
  repeat split; set_solver.
Qed.

(** C5: [adjudicate] sets the cached positive view to [None] exactly when the
    positive set it leaves differs, as a set, from the one it found, and
    otherwise leaves that cache as it was; likewise the cached negative view
    and the negative set; the cached view of unadjudicated elements is set
    to [None] exactly when one of the two sets changed; the cached view of
    all results is never touched. *)
Theorem adjudicate_cache_invalidation (new_positives new_negatives
    un_positives un_negatives : DSet) (s : IqrSession) :
  let s' := adjudicate new_positives new_negatives un_positives
              un_negatives s in
  let pos_same :=
    dom (positive_descriptors s') = dom (positive_descriptors s) in
  let neg_same :=
    dom (negative_descriptors s') = dom (negative_descriptors s) in
  _ordered_pos s' = (if decide pos_same then _ordered_pos s else None) ∧
  _ordered_neg s' = (if decide neg_same then _ordered_neg s else None) ∧
  _ordered_non_adj s' =
    (if decide (pos_same ∧ neg_same) then _ordered_non_adj s else None) ∧
  _ordered_results s' = _ordered_results s.
Proof.
  intros s' pos_same neg_same. subst s' pos_same neg_same.
  rewrite adjudicate_positive, adjudicate_negative.
  unfold adjudicate, d_set_eqb, d_set_update, d_set_difference_update.
  simpl.
  set (P := dom (((positive_descriptors s ∪ new_positives) ∖ un_positives)
                   ∖ new_negatives)).
  set (N := dom (((negative_descriptors s ∪ new_negatives) ∖ un_negatives)
                   ∖ new_positives)).
  destruct (decide (P = dom (positive_descriptors s))) as [HP|HP];
    destruct (decide (N = dom (negative_descriptors s))) as [HN|HN].
  - rewrite (bool_decide_eq_true_2 (dom (positive_descriptors s) = P)) by done.
    simpl.
    rewrite (bool_decide_eq_true_2 (dom (negative_descriptors s) = N)) by done.
    simpl. rewrite decide_True by done. done.
  - rewrite (bool_decide_eq_true_2 (dom (positive_descriptors s) = P)) by done.
    simpl.
    rewrite (bool_decide_eq_false_2 (dom (negative_descriptors s) = N))
      by done.
    simpl. rewrite decide_False by tauto. done.
  - rewrite (bool_decide_eq_false_2 (dom (positive_descriptors s) = P))
      by done.
    simpl.
    rewrite (bool_decide_eq_true_2 (dom (negative_descriptors s) = N)) by done.
    simpl. rewrite decide_False by tauto. done.
  - rewrite (bool_decide_eq_false_2 (dom (positive_descriptors s) = P))
      by done.
    simpl.
    rewrite (bool_decide_eq_false_2 (dom (negative_descriptors s) = N))
      by done.
    simpl. rewrite decide_False by tauto. done.
Qed.

(** ** The refinement engine *)

Lemma d_set_empty_size (m : DSet) : size m = 0%nat ↔ m = ∅.
Proof. apply map_size_empty_iff. Qed.

(** What [refine] does: it raises the not-initialised error exactly when
    the relevancy index is [None] or was built over no element; with an
    index over some element it raises the no-positive-adjudications error
    exactly when the positive and external positive sets are both empty;
    otherwise it returns normally, having called [rank] once on the index,
    with the scores replaced by the mapping [rank] returned, the four ledger
    sets copied into the four contributor sets, the four cached views set to
    [None] and everything else as it was. *)
Lemma refine_outcome (s : IqrSession) :
  (raised (refine s) = Some NotInitialized ↔
   rel_index s = None ∨ ∃ ri, rel_index s = Some ri ∧ ri_indexed ri = []) ∧
  (∀ ri, rel_index s = Some ri → ri_indexed ri ≠ [] →
     (raised (refine s) = Some NoPositiveAdjudications ↔
      positive_descriptors s ∪ external_positive_descriptors s = ∅)) ∧
  (∀ ri, rel_index s = Some ri → ri_indexed ri ≠ [] →
     positive_descriptors s ∪ external_positive_descriptors s ≠ ∅ →
     let pos := positive_descriptors s ∪ external_positive_descriptors s in
     let neg := negative_descriptors s ∪ external_negative_descriptors s in
     let s' := after (refine s) in
     raised (refine s) = None ∧
     calls (refine s) = [EvRank pos neg] ∧
     results s' = Some (ri_rank ri (ri_indexed ri) pos neg) ∧
     rank_contrib_pos s' = positive_descriptors s ∧
     rank_contrib_pos_ext s' = external_positive_descriptors s ∧
     rank_contrib_neg s' = negative_descriptors s ∧
     rank_contrib_neg_ext s' = external_negative_descriptors s ∧
     _ordered_results s' = None ∧ _ordered_pos s' = None ∧
     _ordered_neg s' = None ∧ _ordered_non_adj s' = None ∧
     positive_descriptors s' = positive_descriptors s ∧
     negative_descriptors s' = negative_descriptors s ∧
     external_positive_descriptors s' = external_positive_descriptors s ∧
     external_negative_descriptors s' = external_negative_descriptors s ∧
     working_set s' = working_set s ∧
     _wi_seeds_used s' = _wi_seeds_used s ∧
     rel_index s' = rel_index s ∧
     rel_index_config s' = rel_index_config s ∧
     pos_seed_neighbors s' = pos_seed_neighbors s ∧
     session_uuid s' = session_uuid s).
Proof.
  unfold refine, rel_index_falsy, rel_index_len, refine_pos, refine_neg,
    d_set_or.
  split; [|split].
  - destruct (rel_index s) as [ri|]; simpl; [|split; [by left|done]].
    case_bool_decide as Hlen.
    + split; [|done]. intros _. right. exists ri. split; [done|].
      by apply length_zero_iff_nil.
    + split.
      * destruct (decide _); discriminate.
      * intros [?|(ri' & [= <-] & Hnil)]; [done|].
        by rewrite Hnil in Hlen.
  - intros ri -> Hne. rewrite bool_decide_eq_false_2.
    2:{ by intros ?%length_zero_iff_nil. }
    destruct (decide _) as [He|He]; simpl.
    + by apply d_set_empty_size in He.
    + split; [discriminate|]. intros H. by apply d_set_empty_size in H.
  - intros ri -> Hne Hpos. rewrite bool_decide_eq_false_2.
    2:{ by intros ?%length_zero_iff_nil. }
    destruct (decide _) as [He|He]; simpl.
    + by apply d_set_empty_size in He.
    + repeat split.
Qed.


(** ** The sort of the result views *)

Global Instance score_ge_trans : Transitive score_ge.
Proof. intros a b c Hab Hbc. unfold score_ge in *. by etrans. Qed.

Lemma insert_by_score_perm x l : insert_by_score x l ≡ₚ x :: l.
Proof.
  induction l as [|y l IH]; simpl; [done|].
  destruct (decide _); [done|].
  rewrite IH. apply Permutation_swap.
Qed.

Lemma insert_by_score_hd x y l :
  score_ge y x → HdRel score_ge y l → HdRel score_ge y (insert_by_score x l).
Proof.
  intros Hyx Hl. destruct l as [|z l]; simpl.
  - by constructor.
  - destruct (decide _); constructor; [done|].
    by inversion Hl.
Qed.

Lemma insert_by_score_sorted x l :
  Sorted score_ge l → Sorted score_ge (insert_by_score x l).
Proof.
  induction 1 as [|y l Hl IH Hhd]; simpl.
  - repeat constructor.
  - destruct (decide (y.2 ≤ x.2)%Qc) as [Hle|Hnle].
    + constructor; [by constructor|]. by constructor.
    + constructor; [done|].
      apply insert_by_score_hd; [|done].
      unfold score_ge. apply Qclt_le_weak. by apply Qclt_nge.
Qed.

Lemma sorted_by_score_perm l : sorted_by_score l ≡ₚ l.
Proof.
  induction l as [|x l IH]; simpl; [done|].
  by rewrite insert_by_score_perm, IH.
Qed.

Lemma sorted_by_score_sorted l : Sorted score_ge (sorted_by_score l).
Proof.
  induction l as [|x l IH]; simpl; [constructor|].
  by apply insert_by_score_sorted.
Qed.

Lemma sorted_by_score_elem_of t l : t ∈ sorted_by_score l ↔ t ∈ l.
Proof. by rewrite sorted_by_score_perm. Qed.

(** Items of equal score keep the order the mapping yields them in. *)
Lemma insert_by_score_stable x l :
  Forall (λ y, (y.2 ≤ x.2)%Qc) l → insert_by_score x l = x :: l.
Proof.
  destruct 1 as [|y l Hy _]; simpl; [done|]. by rewrite decide_True.
Qed.

(** ** The cache of all results agrees with the scores *)

Lemma session_eta s :
  s = mkSession (session_uuid s) (pos_seed_neighbors s) (working_set s)
        (_wi_seeds_used s) (external_positive_descriptors s)
        (external_negative_descriptors s) (positive_descriptors s)
        (negative_descriptors s) (rank_contrib_pos s) (rank_contrib_pos_ext s)
        (rank_contrib_neg s) (rank_contrib_neg_ext s) (results s)
        (_ordered_results s) (_ordered_pos s) (_ordered_neg s)
        (_ordered_non_adj s) (rel_index_config s) (rel_index s).
Proof. by destruct s. Qed.

(** The loop of [update_working_set] writes the working set and the used
    seeds and nothing else. *)
Lemma update_working_set_loop_frame nn_index l s updated tr :
  ∃ ws seeds,
    (foldl (update_working_set_visit nn_index) (s, updated, tr) l).1.1 =
    set_wi_seeds_used seeds (set_working_set ws s).
Proof.
  revert s updated tr. induction l as [|p l IH]; intros s updated tr; simpl.
  - exists (working_set s), (_wi_seeds_used s). by destruct s.
  - destruct (decide _).
    + edestruct IH as (ws & seeds & ->). by exists ws, seeds.
    + apply IH.
Qed.

Lemma update_working_set_frame nn_index s :
  ∃ ws seeds ri,
    after (update_working_set nn_index s) =
    set_rel_index ri (set_wi_seeds_used seeds (set_working_set ws s)).
Proof.
  unfold update_working_set. destruct (decide _); simpl.
  - exists (working_set s), (_wi_seeds_used s), (rel_index s). by destruct s.
  - destruct (update_working_set_loop_frame nn_index
      (d_set_iter (d_set_or (external_positive_descriptors s)
                            (positive_descriptors s))) s false [])
      as (ws & seeds & Heq).
    destruct (foldl _ _ _) as [[s1 updated] tr]. simpl in Heq. subst s1.
    destruct updated; simpl.
    + by eexists ws, seeds, _.
    + by exists ws, seeds, (rel_index s).
Qed.

(** [set_state_bytes] either raises before it touches the session, or leaves
    a reset session with some sets loaded. *)
Lemma set_state_bytes_frame b factory s :
  (raised (set_state_bytes b factory s) = Some InvalidStateArchive ∧
   after (set_state_bytes b factory s) = s) ∨
  (raised (set_state_bytes b factory s) ≠ Some InvalidStateArchive ∧
   ∃ ep en p n,
    after (set_state_bytes b factory s) =
    set_negative n (set_positive p (set_external_negative en
      (set_external_positive ep (reset s))))).
Proof.
  assert (∀ f l t, (load_source f l t).1 ≠ Some InvalidStateArchive) as Hld.
  { intros f l. induction l as [|[[u ty] v] l IH]; intros t; simpl; [done|].
    unfold load_descriptor. destruct (f ty u) as [w|]; [|apply IH].
    destruct (decide _); [apply IH|done]. }
  unfold set_state_bytes. destruct (decide _); [by left|].
  destruct (z_read _ _) as [state|]; [|by left]. right.
  pose proof (Hld factory (doc_external_pos state) ∅) as H1.
  destruct (load_source factory (doc_external_pos state) _) as [[e1|] t1];
    simpl in *.
  { split; [done|]. by exists t1, ∅, ∅, ∅. }
  pose proof (Hld factory (doc_external_neg state) ∅) as H2.
  destruct (load_source factory (doc_external_neg state) _) as [[e2|] t2];
    simpl in *.
  { split; [done|]. by exists t1, t2, ∅, ∅. }
  pose proof (Hld factory (doc_pos state) ∅) as H3.
  destruct (load_source factory (doc_pos state) _) as [[e3|] t3]; simpl in *.
  { split; [done|]. by exists t1, t2, t3, ∅. }
  pose proof (Hld factory (doc_neg state) ∅) as H4.
  destruct (load_source factory (doc_neg state) _) as [e4 t4]; simpl in *.
  split; [done|]. by exists t1, t2, t3, t4.
Qed.

Lemma ordered_results_coherent s :
  cache_coherent s → cache_coherent (ordered_results s).2.
Proof.
  unfold cache_coherent, ordered_results.
  destruct (_ordered_results s) as [c|] eqn:Hc; simpl; [by rewrite Hc|].
  destruct (results s) as [r|] eqn:Hr; simpl; [|by rewrite Hc].
  intros _. by exists r.
Qed.

Lemma call_coherent c s : cache_coherent s → cache_coherent (after (call c s)).
Proof.
  intros Hs. destruct c; simpl; try done.
  - unfold adjudicate. split_ifs; done.
  - destruct (update_working_set_frame nn_index s) as (ws & sd & ri & ->).
    done.
  - unfold refine, rel_index_falsy. destruct (rel_index s); [|done].
    destruct (bool_decide _); [done|]. destruct (decide _); done.
  - by apply ordered_results_coherent.
  - unfold get_positive_adjudication_relevancy.
    destruct (_ordered_pos s); [done|].
    pose proof (ordered_results_coherent s Hs).
    by destruct (ordered_results s).
  - unfold get_negative_adjudication_relevancy.
    destruct (_ordered_neg s); [done|].
    pose proof (ordered_results_coherent s Hs).
    by destruct (ordered_results s).
  - unfold get_unadjudicated_relevancy.
    destruct (_ordered_non_adj s); [done|].
    pose proof (ordered_results_coherent s Hs).
    by destruct (ordered_results s).
  - destruct (set_state_bytes_frame b descriptor_factory s)
      as [[_ ->]|[_ (ep & en & p & n & ->)]]; done.
Qed.

Lemma run_coherent cs s : cache_coherent s → cache_coherent (run cs s).1.
Proof.
  induction cs as [|c cs IH] using rev_ind; intros Hs; [done|].
  rewrite run_snoc. simpl. apply call_coherent; auto.
Qed.

(** C9: in every state a session can reach, [ordered_results] returns a list
    in which no item is followed by one of a higher score, and when there
    are scores that list is the stable descending sort of their items (so a
    rearrangement of them); when there are no scores it returns the empty
    list and leaves the session, its cache included, exactly as it was; and
    right after any [refine] that returned, it returns the sort of the new
    scores. *)
Theorem ordered_results_descending (cs : list Call) (n : Z) (cfg : RankFn)
    (uid : string) :
  let s := (run cs (new_session n cfg uid)).1 in
  StronglySorted score_ge (ordered_results s).1 ∧
  (∀ items, results s = Some items →
     (ordered_results s).1 = sorted_by_score items ∧
     (ordered_results s).1 ≡ₚ items) ∧
  (results s = None →
     ordered_results s = ([], s) ∧ _ordered_results s = None) ∧
  (∀ s0, raised (refine s0) = None →
     ∃ items, results (after (refine s0)) = Some items ∧
       (ordered_results (after (refine s0))).1 = sorted_by_score items ∧
       StronglySorted score_ge (ordered_results (after (refine s0))).1).
Proof.
  intros s.
  assert (cache_coherent s) as Hco by (by apply run_coherent).
  assert (∀ items, results s = Some items →
            (ordered_results s).1 = sorted_by_score items) as Hsome.
  { intros items Hr. unfold ordered_results, cache_coherent in *.
    destruct (_ordered_results s) as [c|]; simpl.
    - destruct Hco as (r & Hr' & ->). congruence.
    - by rewrite Hr. }
  assert (results s = None → ordered_results s = ([], s)
                              ∧ _ordered_results s = None) as Hnone.
  { intros Hr. unfold ordered_results, cache_coherent in *.
    destruct (_ordered_results s) as [c|]; simpl.
    - destruct Hco as (r & Hr' & ->). congruence.
    - by rewrite Hr. }
  split_and!.
  - destruct (results s) as [items|] eqn:Hr.
    + rewrite (Hsome items eq_refl).
      apply Sorted_StronglySorted; [apply _|apply sorted_by_score_sorted].
    + destruct (Hnone eq_refl) as [-> _]. constructor.
  - intros items Hr. rewrite (Hsome items Hr).
    split; [done|apply sorted_by_score_perm].
  - done.
  - intros s0. unfold refine, rel_index_falsy.
    destruct (rel_index s0) as [ri|]; [|done].
    destruct (bool_decide _); [done|].
    destruct (decide _); [done|]. simpl. intros _.
    eexists. split; [done|]. split; [done|].
    apply Sorted_StronglySorted; [apply _|apply sorted_by_score_sorted].
Qed.

(** ** The partition of the results into views *)

(** X19: right after a [refine] that returned, with the views read one
    after the other, the views of positive, negative and unadjudicated
    results hold between them exactly the items of the view of all results;
    no element of the unadjudicated view is in the positive or in the
    negative view; and the positive and the negative view share no element
    provided no element was in both sets handed to [rank], the positives
    with the external positives and the negatives with the external
    negatives. *)
Theorem refine_views_partition (s : IqrSession) :
  raised (refine s) = None →
  let s1 := after (refine s) in
  let rp := get_positive_adjudication_relevancy s1 in
  let rn := get_negative_adjudication_relevancy rp.2 in
  let ru := get_unadjudicated_relevancy rn.2 in
  let ra := ordered_results ru.2 in
  (∀ t, t ∈ ra.1 ↔ t ∈ rp.1 ∨ t ∈ rn.1 ∨ t ∈ ru.1) ∧
  (∀ t t', t ∈ rp.1 → t' ∈ ru.1 → d_key t.1 ≠ d_key t'.1) ∧
  (∀ t t', t ∈ rn.1 → t' ∈ ru.1 → d_key t.1 ≠ d_key t'.1) ∧
  (dom (refine_pos s) ## dom (refine_neg s) →
   ∀ t t', t ∈ rp.1 → t' ∈ rn.1 → d_key t.1 ≠ d_key t'.1).
Proof.
  unfold refine, rel_index_falsy, refine_pos, refine_neg.
  destruct (rel_index s) as [ri|]; [|done].
  destruct (bool_decide _); [done|].
  destruct (decide _); [done|]. simpl. intros _.
  set (all := sorted_by_score _).
  unfold d_set_in, d_set_or.
  split_and!.
  - intros t. rewrite !list_elem_of_filter.
    destruct (decide (d_key t.1 ∈ dom (positive_descriptors s
                        ∪ external_positive_descriptors s)));
      destruct (decide (d_key t.1 ∈ dom (negative_descriptors s
                          ∪ external_negative_descriptors s)));
      set_solver.
  - intros t t'. rewrite !list_elem_of_filter.
    intros [H1 _] [H2 _] Heq. rewrite Heq in H1. set_solver.
  - intros t t'. rewrite !list_elem_of_filter.
    intros [H1 _] [H2 _] Heq. rewrite Heq in H1. set_solver.
  - intros Hd t t'. rewrite !list_elem_of_filter.
    intros [H1 _] [H2 _] Heq. rewrite Heq in H1. set_solver.
Qed.

(** ** The working set builder *)

Lemma queried_seeds_app tr1 tr2 :
  queried_seeds (tr1 ++ tr2) = queried_seeds tr1 ++ queried_seeds tr2.
Proof. apply omap_app. Qed.

Lemma d_set_iter_in (d : DescriptorElement) (S : DSet) :
  d ∈ d_set_iter S → d_set_in d S.
Proof.
  unfold d_set_iter, d_set_in. intros ([[u ty] v] & -> & Hin)%list_elem_of_fmap.
  apply elem_of_map_to_list in Hin. apply elem_of_dom. by exists v.
Qed.

(** A turn of the loop for a seed that was used before does nothing. *)
Lemma update_working_set_loop_used nn_index l s updated tr :
  (∀ p, p ∈ l → uuid p ∈ _wi_seeds_used s) →
  foldl (update_working_set_visit nn_index) (s, updated, tr) l =
  (s, updated, tr).
Proof.
  induction l as [|p l IH]; intros Hl; simpl; [done|].
  rewrite decide_False.
  - apply IH. intros q Hq. apply Hl. by right.
  - intros Hn. apply Hn, Hl. by left.
Qed.

(** After the loop every seed it visited is marked as used. *)
Lemma update_working_set_loop_marks nn_index l s updated tr :
  let s' := (foldl (update_working_set_visit nn_index) (s, updated, tr) l).1.1
  in _wi_seeds_used s ⊆ _wi_seeds_used s' ∧
     (∀ p, p ∈ l → uuid p ∈ _wi_seeds_used s').
Proof.
  revert s updated tr. induction l as [|p l IH]; intros s updated tr; simpl.
  - split; [done|]. by intros p Hp%elem_of_nil.
  - destruct (decide _) as [Hp|Hp].
    + match goal with
      | |- context [foldl _ (?s1, ?u1, ?t1) l] =>
        destruct (IH s1 u1 t1) as [Hsub Hall]
      end.
      simpl in *. split; [set_solver|].
      intros q [->|Hq]%elem_of_cons; [set_solver|by apply Hall].
    + destruct (IH s updated tr) as [Hsub Hall]. split; [done|].
      intros q [->|Hq]%elem_of_cons; [|by apply Hall].
      apply Hsub. by apply dec_stable.
Qed.

Lemma update_working_set_visit_inv nn_index S0 acc p :
  loop_inv S0 acc → loop_inv S0 (update_working_set_visit nn_index acc p).
Proof.
  destruct acc as [[s updated] tr]. unfold loop_inv, update_working_set_visit.
  simpl. intros (Hnd & Hq & Hsub).
  destruct (decide _) as [Hp|Hp]; simpl; [|done].
  rewrite queried_seeds_app. simpl. split_and!.
  - apply NoDup_app. split_and!; [done| |apply NoDup_singleton].
    intros u Hu ->%list_elem_of_singleton. by apply Hq in Hu as [? _].
  - intros u [Hu| ->%list_elem_of_singleton]%elem_of_app.
    + apply Hq in Hu as [? ?]. set_solver.
    + set_solver.
  - set_solver.
Qed.

Lemma update_working_set_loop_inv nn_index S0 l acc :
  loop_inv S0 acc →
  loop_inv S0 (foldl (update_working_set_visit nn_index) acc l).
Proof.
  revert acc. induction l as [|p l IH]; intros acc Hacc; simpl; [done|].
  by apply IH, update_working_set_visit_inv.
Qed.

Lemma update_working_set_queries nn_index s :
  loop_inv (_wi_seeds_used s)
    (after (update_working_set nn_index s), false,
     calls (update_working_set nn_index s)).
Proof.
  unfold update_working_set. destruct (decide _); simpl.
  { split_and!; simpl; [constructor|by intros u Hu%elem_of_nil|done]. }
  pose proof (update_working_set_loop_inv nn_index (_wi_seeds_used s)
    (d_set_iter (d_set_or (external_positive_descriptors s)
                          (positive_descriptors s))) (s, false, [])) as H.
  destruct (foldl _ _ _) as [[s1 updated] tr].
  destruct H as (Hnd & Hq & Hsub).
  { split_and!; simpl; [constructor|by intros u Hu%elem_of_nil|done]. }
  unfold loop_inv in *. simpl in *.
  destruct updated; simpl; [|done].
  rewrite queried_seeds_app. simpl. rewrite app_nil_r. done.
Qed.

(** A run keeps the same true, for the seeds [S0] used before the run, as
    long as no call clears the used seeds. *)
Lemma call_loop_inv S0 c s tr :
  resets c = false → loop_inv S0 (s, false, tr) →
  loop_inv S0 (after (call c s), false, tr ++ calls (call c s)).
Proof.
  unfold loop_inv. simpl. intros Hc (Hnd & Hq & HS0).
  assert (∀ s', _wi_seeds_used s' = _wi_seeds_used s →
    NoDup (queried_seeds (tr ++ [])) ∧
    (∀ u, u ∈ queried_seeds (tr ++ []) → u ∈ _wi_seeds_used s' ∧ u ∉ S0) ∧
    S0 ⊆ _wi_seeds_used s') as Hsame.
  { intros s' ->. by rewrite app_nil_r. }
  destruct c; simpl; try discriminate; try (by apply Hsame).
  - apply Hsame. unfold adjudicate. split_ifs; done.
  - destruct (update_working_set_queries nn_index s) as (Hnd' & Hq' & Hsub).
    simpl in *. rewrite queried_seeds_app. split_and!.
    + apply NoDup_app. split_and!; [done| |done].
      intros u Hu Hu'. apply Hq' in Hu' as [_ Hn]. by apply Hn, Hq.
    + intros u [Hu|Hu]%elem_of_app.
      * apply Hq in Hu as [? ?]. split; [by apply Hsub|done].
      * apply Hq' in Hu as [? ?]. split; [done|]. set_solver.
    + set_solver.
  - unfold refine, rel_index_falsy.
    destruct (rel_index s); [|by apply Hsame].
    destruct (bool_decide _); [by apply Hsame|].
    destruct (decide _); [by apply Hsame|]. simpl.
    rewrite queried_seeds_app. simpl. rewrite app_nil_r. done.
  - apply Hsame. unfold ordered_results.
    destruct (_ordered_results s); [done|]. by destruct (results s).
  - apply Hsame. unfold get_positive_adjudication_relevancy, ordered_results.
    destruct (_ordered_pos s); [done|].
    destruct (_ordered_results s); [done|]. by destruct (results s).
  - apply Hsame. unfold get_negative_adjudication_relevancy, ordered_results.
    destruct (_ordered_neg s); [done|].
    destruct (_ordered_results s); [done|]. by destruct (results s).
  - apply Hsame. unfold get_unadjudicated_relevancy, ordered_results.
    destruct (_ordered_non_adj s); [done|].
    destruct (_ordered_results s); [done|]. by destruct (results s).
Qed.

Lemma run_loop_inv cs s :
  forallb (λ c, negb (resets c)) cs = true →
  loop_inv (_wi_seeds_used s) ((run cs s).1, false, (run cs s).2).
Proof.
  induction cs as [|c cs IH] using rev_ind; intros Hcs.
  { split_and!; simpl; [constructor|by intros u Hu%elem_of_nil|done]. }
  apply forallb_snoc in Hcs as [Hcs Hc].
  rewrite run_snoc. specialize (IH Hcs).
  destruct (run cs s) as [s1 tr1]. simpl in *.
  apply call_loop_inv; [|done]. by destruct (resets c).
Qed.

(** C7: when the identifier of every element of the positive and external
    positive sets is marked as used, [update_working_set] queries the
    neighbor index not once, calls nothing else and leaves the session, with
    its working set, used seeds and relevancy index, as it was; this is so
    for a second [update_working_set] that follows a first one directly;
    and over any run of calls that does not clear the used seeds, from any
    session, no identifier is queried for twice, and none that was marked as
    used when the run began. *)
Theorem seeds_queried_once :
  (∀ (nn_index : NNIndex) (s : IqrSession),
     (∀ d, d_set_in d (external_positive_descriptors s
                         ∪ positive_descriptors s) →
           uuid d ∈ _wi_seeds_used s) →
     calls (update_working_set nn_index s) = [] ∧
     after (update_working_set nn_index s) = s) ∧
  (∀ (nn_index nn_index' : NNIndex) (s : IqrSession),
     let s1 := after (update_working_set nn_index s) in
     calls (update_working_set nn_index' s1) = [] ∧
     after (update_working_set nn_index' s1) = s1) ∧
  (∀ (cs : list Call) (s : IqrSession),
     forallb (λ c, negb (resets c)) cs = true →
     NoDup (queried_seeds (run cs s).2) ∧
     (∀ u, u ∈ queried_seeds (run cs s).2 → u ∉ _wi_seeds_used s)).
Proof.
  assert (∀ (nn_index : NNIndex) (s : IqrSession),
     (∀ d, d_set_in d (external_positive_descriptors s
                         ∪ positive_descriptors s) →
           uuid d ∈ _wi_seeds_used s) →
     calls (update_working_set nn_index s) = [] ∧
     after (update_working_set nn_index s) = s) as Hused.
  { intros nn_index s Hall. unfold update_working_set.
    destruct (decide _); [done|].
    rewrite update_working_set_loop_used; [done|].
    intros p Hp. by apply Hall, d_set_iter_in. }
  split_and!; [done| |].
  - intros nn_index nn_index' s s1. apply Hused. subst s1.
    intros d Hd. unfold update_working_set in *.
    destruct (decide _) as [He|He]; simpl in *.
    { apply d_set_empty_size in He. unfold d_set_in, d_set_or in *.
      rewrite He in Hd. set_solver. }
    pose proof (update_working_set_loop_marks nn_index
      (d_set_iter (d_set_or (external_positive_descriptors s)
                            (positive_descriptors s))) s false [])
      as [_ Hmarks].
    pose proof (update_working_set_loop_frame nn_index
      (d_set_iter (d_set_or (external_positive_descriptors s)
                            (positive_descriptors s))) s false [])
      as (ws & seeds & Hfr).
    destruct (foldl _ _ _) as [[s2 updated] tr]. simpl in *. subst s2.
    assert (d_set_in d (d_set_or (external_positive_descriptors s)
                                 (positive_descriptors s))) as Hd'.
    { by destruct updated. }
    assert (uuid d ∈ seeds) as Hin.
    { unfold d_set_in in Hd'. apply elem_of_dom in Hd' as [v Hv].
      apply (Hmarks (mkDescr (uuid d) (type_str d) v)).
      unfold d_set_iter. apply list_elem_of_fmap.
      exists (d_key d, v). split; [done|].
      by apply elem_of_map_to_list. }
    by destruct updated.
  - intros cs s Hcs.
    destruct (run_loop_inv cs s Hcs) as (Hnd & Hq & _). simpl in *.
    split; [done|]. intros u Hu. by apply Hq in Hu as [_ ?].
Qed.

(** ** Errors and the session they leave *)

Lemma z_read_namelist name (z : Archive) :
  name ∈ namelist z ↔ is_Some (z_read name z).
Proof.
  unfold namelist. induction z as [|[n doc] z IH]; simpl.
  - split; [by intros ?%elem_of_nil|by intros [? ?]].
  - rewrite elem_of_cons, IH. destruct (z_read name z) as [later|].
    + split; [by eexists|]. right. by eexists.
    + destruct (decide (n = name)) as [->|Hne].
      * split; [by eexists|by left].
      * split; [intros [->|[? ?]]; done|by intros [? ?]].
Qed.

Lemma set_state_bytes_calls b factory s :
  calls (set_state_bytes b factory s) = [].
Proof.
  unfold set_state_bytes. destruct (decide _); [done|].
  destruct (z_read _ _) as [state|]; [|done].
  destruct (load_source _ (doc_external_pos state) _) as [[e1|] t1]; [done|].
  destruct (load_source _ (doc_external_neg state) _) as [[e2|] t2]; [done|].
  destruct (load_source _ (doc_pos state) _) as [[e3|] t3]; [done|].
  by destruct (load_source _ (doc_neg state) _) as [e4 t4].
Qed.

Lemma clean_prefix_all factory l :
  Forall (loads_cleanly factory) l → clean_prefix factory l = l.
Proof.
  induction 1 as [|x l Hx _ IH]; cbn [clean_prefix]; [done|].
  by rewrite decide_True, IH.
Qed.

Lemma clean_prefix_stops factory l :
  ¬ Forall (loads_cleanly factory) l →
  ∃ x post, l = clean_prefix factory l ++ x :: post ∧
            ¬ loads_cleanly factory x.
Proof.
  induction l as [|x l IH]; intros Hl; cbn [clean_prefix].
  { destruct Hl. constructor. }
  destruct (decide (loads_cleanly factory x)) as [Hx|Hx].
  - destruct IH as (y & post & Heq & Hy).
    { intros Hall. apply Hl. by constructor. }
    exists y, post. split; [|done]. simpl. by f_equal.
  - by exists x, l.
Qed.

Lemma clean_prefix_clean factory l :
  Forall (loads_cleanly factory) (clean_prefix factory l).
Proof.
  induction l as [|x l IH]; cbn [clean_prefix]; [constructor|].
  destruct (decide (loads_cleanly factory x)); by constructor.
Qed.

Lemma clean_prefix_app factory l1 l2 :
  clean_prefix factory (l1 ++ l2) =
  clean_prefix factory l1 ++ loaded_part factory l1 l2.
Proof.
  unfold loaded_part. induction l1 as [|x l1 IH]; cbn [clean_prefix app].
  { by rewrite decide_True by constructor. }
  destruct (decide (loads_cleanly factory x)) as [Hx|Hx].
  - rewrite IH. destruct (decide (Forall _ l1)) as [Hl|Hl].
    + by rewrite decide_True by (by constructor).
    + rewrite decide_False; [done|]. by intros [_ ?]%Forall_cons.
  - rewrite decide_False; [done|]. by intros [? _]%Forall_cons.
Qed.

Lemma loaded_part_app factory before l1 l2 :
  loaded_part factory before (l1 ++ l2) =
  loaded_part factory before l1 ++ loaded_part factory (before ++ l1) l2.
Proof.
  unfold loaded_part at 1 2.
  destruct (decide (Forall _ before)) as [Hb|Hb].
  - rewrite clean_prefix_app. f_equal. unfold loaded_part.
    destruct (decide (Forall _ l1)) as [Hl|Hl].
    + by rewrite decide_True by (by apply Forall_app).
    + rewrite decide_False; [done|]. by intros [_ ?]%Forall_app.
  - unfold loaded_part. rewrite decide_False; [done|].
    by intros [? _]%Forall_app.
Qed.

Lemma loaded_part_nil factory l :
  loaded_part factory [] l = clean_prefix factory l.
Proof. unfold loaded_part. by rewrite decide_True by constructor. Qed.

(** The inner loop over one field: it stops at the first triple that does
    not load cleanly, with the triples before it added to the target. *)
Lemma load_source_prefix (factory : DescriptorElementFactory)
    (l : list Triple) (t : DSet) :
  load_source factory l t =
  (if decide (Forall (loads_cleanly factory) l) then None
   else Some VectorMismatch,
   t ∪ d_set_of_triples (clean_prefix factory l)).
Proof.
  unfold d_set_of_triples. revert t.
  induction l as [|[[u ty] v] l IH]; intros t;
    cbn [load_source clean_prefix].
  { rewrite decide_True by constructor. simpl.
    by rewrite (right_id_L ∅ (∪)). }
  unfold load_descriptor.
  assert (∀ w, (t ∪ {[ (u, ty) := w ]})
               ∪ list_to_map ((λ x : Triple, (triple_key x, x.2))
                                <$> clean_prefix factory l) =
               t ∪ list_to_map ((λ x : Triple, (triple_key x, x.2))
                                  <$> (u, ty, w) :: clean_prefix factory l))
    as Hadd.
  { intros w. simpl. unfold triple_key at 2. simpl.
    by rewrite <-(assoc_L (∪)), <-insert_union_singleton_l. }
  destruct (factory ty u) as [w|] eqn:Hf.
  - destruct (decide (w = v)) as [->|Hne].
    + rewrite IH. unfold d_set_add, d_key. cbn [uuid type_str vector].
      rewrite (decide_True (P := loads_cleanly factory (u, ty, v)))
        by (by right).
      rewrite Hadd. f_equal.
      destruct (decide (Forall _ l)) as [Hl|Hl].
      * by rewrite decide_True by (constructor; [by right|done]).
      * rewrite decide_False; [done|]. by intros [_ ?]%Forall_cons.
    + assert (¬ loads_cleanly factory (u, ty, v)) as Hx.
      { intros [Hc|Hc]; unfold loads_cleanly in *; simpl in *; congruence. }
      rewrite (decide_False (P := loads_cleanly factory (u, ty, v))) by done.
      rewrite decide_False by (by intros [? _]%Forall_cons).
      simpl. by rewrite (right_id_L ∅ (∪)).
  - rewrite IH. unfold d_set_add, d_key. cbn [uuid type_str vector].
    rewrite (decide_True (P := loads_cleanly factory (u, ty, v)))
      by (by left).
    rewrite Hadd. f_equal.
    destruct (decide (Forall _ l)) as [Hl|Hl].
    + by rewrite decide_True by (constructor; [by left|done]).
    + rewrite decide_False; [done|]. by intros [_ ?]%Forall_cons.
Qed.

(** The whole import of a document: what it raises and what it leaves. *)
Lemma set_state_bytes_loaded b factory s state :
  z_read STATE_ZIP_FILENAME b = Some state →
  set_state_bytes b factory s =
  mkOutcome
    (if decide (Forall (loads_cleanly factory) (doc_load_order state))
     then None else Some VectorMismatch)
    (set_negative
       (d_set_of_triples
          (loaded_part factory
             (doc_external_pos state ++ doc_external_neg state
              ++ doc_pos state) (doc_neg state)))
       (set_positive
          (d_set_of_triples
             (loaded_part factory
                (doc_external_pos state ++ doc_external_neg state)
                (doc_pos state)))
          (set_external_negative
             (d_set_of_triples
                (loaded_part factory (doc_external_pos state)
                   (doc_external_neg state)))
             (set_external_positive
                (d_set_of_triples
                   (loaded_part factory [] (doc_external_pos state)))
                (reset s)))))
    [].
Proof.
  intros Hread.
  assert (STATE_ZIP_FILENAME ∈ namelist b) as Hin.
  { apply z_read_namelist. rewrite Hread. by eexists. }
  assert (∀ m : DSet, ∅ ∪ m = m) as Hl by (intros m; apply (left_id_L _ _)).
  unfold set_state_bytes, doc_load_order, loaded_part.
  rewrite decide_False by (by intros ?). rewrite Hread.
  cbn [external_positive_descriptors external_negative_descriptors
       positive_descriptors negative_descriptors reset
       set_external_positive set_external_negative set_positive].
  rewrite !load_source_prefix, !Hl.
  rewrite (decide_True (P := Forall _ [])) by constructor.
  destruct (decide (Forall _ (doc_external_pos state))) as [F1|F1].
  2:{ rewrite !decide_False; [done|..];
        rewrite ?Forall_app; tauto. }
  destruct (decide (Forall _ (doc_external_neg state))) as [F2|F2].
  2:{ rewrite !decide_False; [done|..]; rewrite ?Forall_app; tauto. }
  rewrite (decide_True
             (P := Forall _ (doc_external_pos state
                             ++ doc_external_neg state)))
    by (by apply Forall_app).
  destruct (decide (Forall _ (doc_pos state))) as [F3|F3].
  2:{ rewrite !decide_False; [done|..]; rewrite ?Forall_app; tauto. }
  rewrite (decide_True
             (P := Forall _ (doc_external_pos state
                             ++ doc_external_neg state ++ doc_pos state)))
    by (by rewrite !Forall_app).
  destruct (decide (Forall _ (doc_neg state))) as [F4|F4].
  - by rewrite decide_True by (by rewrite !Forall_app).
  - rewrite decide_False; [done|]. rewrite !Forall_app. tauto.
Qed.

(** C2, as it holds of the code, for archives whose state file holds a
    document of four lists of triples: a call that raises one of the errors
    other than the vector mismatch leaves the session exactly as it found it
    and has called no collaborator; each error comes from the method the
    spec names for it; the vector mismatch is raised by [set_state_bytes]
    after its reset, at the first triple in load order whose factory element
    carries another vector, and it leaves the reset session with exactly
    the triples before that one loaded, each into the set of its field, and
    nothing of the fields that the import did not reach. *)
Theorem errors_leave_state (c : Call) (s : IqrSession) (e : Error) :
  raised (call c s) = Some e →
  (e ≠ VectorMismatch → after (call c s) = s ∧ calls (call c s) = []) ∧
  match e with
  | NoPositiveExamples => ∃ nn_index, c = CallUpdateWorkingSet nn_index
  | NotInitialized | NoPositiveAdjudications => c = CallRefine
  | InvalidStateArchive => ∃ b f, c = CallSetStateBytes b f
  | VectorMismatch =>
    ∃ b f state x post,
      c = CallSetStateBytes b f ∧
      z_read STATE_ZIP_FILENAME b = Some state ∧
      doc_load_order state =
        clean_prefix f (doc_load_order state) ++ x :: post ∧
      ¬ loads_cleanly f x ∧
      clean_prefix f (doc_load_order state) =
        loaded_part f [] (doc_external_pos state)
        ++ loaded_part f (doc_external_pos state) (doc_external_neg state)
        ++ loaded_part f (doc_external_pos state ++ doc_external_neg state)
             (doc_pos state)
        ++ loaded_part f (doc_external_pos state ++ doc_external_neg state
                          ++ doc_pos state) (doc_neg state) ∧
      calls (call c s) = [] ∧
      after (call c s) =
      set_negative
        (d_set_of_triples
           (loaded_part f
              (doc_external_pos state ++ doc_external_neg state
               ++ doc_pos state) (doc_neg state)))
        (set_positive
           (d_set_of_triples
              (loaded_part f
                 (doc_external_pos state ++ doc_external_neg state)
                 (doc_pos state)))
           (set_external_negative
              (d_set_of_triples
                 (loaded_part f (doc_external_pos state)
                    (doc_external_neg state)))
              (set_external_positive
                 (d_set_of_triples
                    (loaded_part f [] (doc_external_pos state)))
                 (reset s))))
  end.
Proof.
  destruct c; simpl; try discriminate.
  - unfold update_working_set. destruct (decide _); simpl.
    + intros [= <-]. split; [done|]. by eexists.
    + destruct (foldl _ _ _) as [[s1 [|]] tr]; discriminate.
  - unfold refine, rel_index_falsy. destruct (rel_index s); simpl.
    + destruct (bool_decide _); simpl; [by intros [= <-]|].
      destruct (decide _); simpl; [|discriminate].
      by intros [= <-].
    + by intros [= <-].
  - destruct (z_read STATE_ZIP_FILENAME b) as [state|] eqn:Hread.
    + rewrite (set_state_bytes_loaded b descriptor_factory s state Hread).
      simpl. destruct (decide _) as [Hall|Hall]; [discriminate|].
      intros [= <-]. split; [done|].
      destruct (clean_prefix_stops descriptor_factory _ Hall)
        as (x & post & Heq & Hx).
      exists b, descriptor_factory, state, x, post.
      split_and!; try done.
      unfold doc_load_order.
      rewrite <-loaded_part_nil, !loaded_part_app. cbn [app].
      by rewrite <-!(assoc_L (++)).
    + assert (STATE_ZIP_FILENAME ∉ namelist b) as Hout.
      { intros [? ?]%z_read_namelist. congruence. }
      unfold set_state_bytes. rewrite decide_True by done. simpl.
      intros [= <-]. split; [done|]. by eexists _, _.
Qed.

(** ** The round trip through the archive *)

Lemma load_source_consistent (factory : DescriptorElementFactory)
    (l : list Triple) (t : DSet) :
  (∀ u ty v, (u, ty, v) ∈ l → factory ty u = None ∨ factory ty u = Some v) →
  load_source factory l t =
  (None, t ∪ list_to_map ((λ x : Triple, ((x.1.1, x.1.2), x.2)) <$> l)).
Proof.
  revert t. induction l as [|[[u ty] v] l IH]; intros t Hf; simpl.
  { by rewrite (right_id_L ∅ (∪)). }
  assert (load_descriptor factory u ty v = inr (mkDescr u ty v)) as ->.
  { unfold load_descriptor.
    destruct (Hf u ty v) as [-> | ->]; [by left|done|].
    by rewrite decide_True. }
  rewrite IH.
  - unfold d_set_add, d_key. simpl.
    by rewrite <-(assoc_L (∪)), <-insert_union_singleton_l.
  - intros u' ty' v' Hin. apply Hf. by right.
Qed.

Lemma d_set_to_list_to_map (m : DSet) :
  list_to_map ((λ x : Triple, ((x.1.1, x.1.2), x.2)) <$> d_set_to_list m) = m.
Proof.
  unfold d_set_to_list, d_set_iter. rewrite <-!list_fmap_compose.
  rewrite <-(list_to_map_to_list m) at 2. f_equal.
  rewrite <-(list_fmap_id (map_to_list m)) at 2.
  apply list_fmap_ext. by intros i [[u ty] v] _.
Qed.

Lemma d_set_to_list_elem_of (m : DSet) u ty v :
  (u, ty, v) ∈ d_set_to_list m → m !! (u, ty) = Some v.
Proof.
  unfold d_set_to_list, d_set_iter. rewrite <-list_fmap_compose.
  intros ([[u' ty'] v'] & [= -> -> ->] & Hin)%list_elem_of_fmap.
  by apply elem_of_map_to_list.
Qed.

(** C6, as it holds of the code: for every session and every factory whose element for an
    identity in the ledger carries no vector or the very vector the ledger
    holds, the export, a reset and the import of the exported archive return
    normally and leave the four ledger sets with the same identifiers, types
    and vectors as before the export, while the working set, the used seeds,
    the scores, the cached views and the relevancy index are empty. *)
Theorem state_round_trip (s : IqrSession)
    (factory : DescriptorElementFactory) :
  (∀ (m : DSet) u ty v,
     m ∈ [positive_descriptors s; negative_descriptors s;
          external_positive_descriptors s; external_negative_descriptors s] →
     m !! (u, ty) = Some v →
     factory ty u = None ∨ factory ty u = Some v) →
  let o := set_state_bytes (get_state_bytes s) factory (reset s) in
  raised o = None ∧
  positive_descriptors (after o) = positive_descriptors s ∧
  negative_descriptors (after o) = negative_descriptors s ∧
  external_positive_descriptors (after o) = external_positive_descriptors s ∧
  external_negative_descriptors (after o) = external_negative_descriptors s ∧
  working_set (after o) = ∅ ∧ _wi_seeds_used (after o) = ∅ ∧
  results (after o) = None ∧ rel_index (after o) = None ∧
  _ordered_results (after o) = None ∧ _ordered_pos (after o) = None ∧
  _ordered_neg (after o) = None ∧ _ordered_non_adj (after o) = None.
Proof.
  intros Hf o. subst o. unfold set_state_bytes, get_state_bytes.
  rewrite decide_False by (simpl; set_solver).
  simpl.
  rewrite !load_source_consistent.
  - simpl. rewrite !d_set_to_list_to_map, !(left_id_L ∅ (∪)). done.
  - intros u ty v Hin%d_set_to_list_elem_of.
    eapply (Hf (negative_descriptors s)); [set_solver|done].
  - intros u ty v Hin%d_set_to_list_elem_of.
    eapply (Hf (positive_descriptors s)); [set_solver|done].
  - intros u ty v Hin%d_set_to_list_elem_of.
    eapply (Hf (external_negative_descriptors s)); [set_solver|done].
  - intros u ty v Hin%d_set_to_list_elem_of.
    eapply (Hf (external_positive_descriptors s)); [set_solver|done].
Qed.

(** ** The example session *)

Lemma ex_session_ledger :
  positive_descriptors ex_session = {[ ("x", "t") := [Q2Qc 1] ]} ∧
  external_negative_descriptors ex_session = {[ ("x", "t") := [Q2Qc 1] ]} ∧
  negative_descriptors ex_session = ∅ ∧
  external_positive_descriptors ex_session = ∅ ∧
  _wi_seeds_used ex_session = {[ "x" ]} ∧
  rel_index ex_session = Some (mkRelIndex ex_rank [ex_x]).
Proof. split_and!; vm_compute; reflexivity. Qed.

Lemma ex_session_refine :
  raised (refine ex_session) = None ∧
  calls (refine ex_session) =
    [EvRank (refine_pos ex_session) (refine_neg ex_session)] ∧
  refine_pos ex_session = {[ ("x", "t") := [Q2Qc 1] ]} ∧
  refine_neg ex_session = {[ ("x", "t") := [Q2Qc 1] ]}.
Proof. split_and!; vm_compute; reflexivity. Qed.

(** C10: there is a run, an [adjudicate] of [x] as a new positive followed by
    an [external_descriptors] of [x] as a negative and the building of the
    working set, after which [x] is in the positive set and in the external
    negative set while both mutual exclusions of the ledger hold, and the
    [refine] that follows returns normally having handed [x] to [rank] in
    its positive and in its negative argument. *)
Theorem cross_ledger_overlap :
  ∃ (x : DescriptorElement) (nn_index : NNIndex) (n : Z) (cfg : RankFn)
    (uid : string),
    let s := (run [CallAdjudicate (d_set_of_iterable [x]) ∅ ∅ ∅;
                   CallExternalDescriptors ∅ (d_set_of_iterable [x]);
                   CallUpdateWorkingSet nn_index]
                (new_session n cfg uid)).1 in
    d_set_in x (positive_descriptors s) ∧
    d_set_in x (external_negative_descriptors s) ∧
    ledger_exclusive s ∧
    raised (refine s) = None ∧
    (∃ pos neg, calls (refine s) = [EvRank pos neg] ∧
                d_set_in x pos ∧ d_set_in x neg).
Proof.
  exists ex_x, ex_nn_index, 2, ex_rank, "sid"%string.
  change (run _ _).1 with ex_session. cbv zeta.
  destruct ex_session_ledger as (Hp & Hen & Hn & Hep & _).
  destruct ex_session_refine as (Hr & Hc & Hrp & Hrn).
  unfold d_set_in, ledger_exclusive. rewrite Hp, Hen, Hn, Hep.
  split_and!.
  - rewrite dom_singleton_L. by apply elem_of_singleton.
  - rewrite dom_singleton_L. by apply elem_of_singleton.
  - rewrite dom_empty_L. apply disjoint_empty_r.
  - rewrite dom_empty_L. apply disjoint_empty_l.
  - done.
  - rewrite Hrp, Hrn in Hc. eexists _, _.
    split_and!; [exact Hc| |]; rewrite dom_singleton_L;
      by apply elem_of_singleton.
Qed.

(** C3: the claim fails on the code where it departs from its own
    documentation.  In the session above [x] was adjudicated positive and
    given as an external negative, never adjudicated negative.  After
    [refine] the set of negatively adjudicated rank contributors is empty,
    and still [x] is returned in the negative view, which by its
    documentation does not include external negative adjudications: the
    view filters by the union with the external negative contributors.  So
    [x] is returned both in the positive and in the negative view. *)
Lemma views_overlap :
  raised (refine ex_session) = None ∧
  negative_descriptors ex_session = ∅ ∧
  rank_contrib_neg (after (refine ex_session)) = ∅ ∧
  rank_contrib_neg_ext (after (refine ex_session)) =
    {[ ("x", "t") := [Q2Qc 1] ]} ∧
  (get_positive_adjudication_relevancy (after (refine ex_session))).1 =
    [(ex_x, Q2Qc 1)] ∧
  (get_negative_adjudication_relevancy
     (get_positive_adjudication_relevancy (after (refine ex_session))).2).1 =
    [(ex_x, Q2Qc 1)].
Proof. split_and!; vm_compute; reflexivity. Qed.

(** C2, as stated, fails: importing the session's own archive with a factory
    whose elements carry another vector raises the vector mismatch and
    leaves the session without its positive adjudication and its index. *)
Lemma vector_mismatch_changes_session :
  raised (call (CallSetStateBytes (get_state_bytes ex_session)
                  ex_stale_factory) ex_session) = Some VectorMismatch ∧
  positive_descriptors ex_session = {[ ("x", "t") := [Q2Qc 1] ]} ∧
  positive_descriptors
    (after (call (CallSetStateBytes (get_state_bytes ex_session)
                    ex_stale_factory) ex_session)) = ∅ ∧
  rel_index ex_session = Some (mkRelIndex ex_rank [ex_x]) ∧
  rel_index
    (after (call (CallSetStateBytes (get_state_bytes ex_session)
                    ex_stale_factory) ex_session)) = None ∧
  after (call (CallSetStateBytes (get_state_bytes ex_session)
                 ex_stale_factory) ex_session) ≠ ex_session.
Proof.
  split_and!; try (vm_compute; reflexivity).
  intros H. apply (f_equal rel_index) in H. vm_compute in H. discriminate H.
Qed.

(** C6, as stated, fails: with a factory whose elements carry another vector
    the import after the export and the reset raises, and the positive set
    is not restored. *)
Lemma round_trip_stale_factory :
  raised (set_state_bytes (get_state_bytes ex_session) ex_stale_factory
            (reset ex_session)) = Some VectorMismatch ∧
  positive_descriptors ex_session = {[ ("x", "t") := [Q2Qc 1] ]} ∧
  positive_descriptors
    (after (set_state_bytes (get_state_bytes ex_session) ex_stale_factory
              (reset ex_session))) = ∅.
Proof. split_and!; vm_compute; reflexivity. Qed.

(** ** The theorems at the session above *)

Lemma ledger_mutual_exclusion_witness :
  forallb ledger_call ex_ledger_calls = true ∧
  positive_descriptors
    (run (take 2 ex_ledger_calls) (new_session 2 ex_rank "sid")).1
  ∩ negative_descriptors
      (run (take 2 ex_ledger_calls) (new_session 2 ex_rank "sid")).1 = ∅.
Proof.
  split; [reflexivity|].
  apply (ledger_mutual_exclusion ex_ledger_calls 2 2 ex_rank "sid").
  reflexivity.
Defined.

Lemma errors_leave_state_witness :
  raised (call (CallSetStateBytes ex_archive_abc ex_b_factory) sc_session) =
    Some VectorMismatch ∧
  after (call (CallSetStateBytes ex_archive_abc ex_b_factory) sc_session) =
    set_positive {[ ("A", "t") := [Q2Qc 1] ]}
      (set_external_positive {[ ("E", "t") := [Q2Qc 1] ]}
         (reset sc_session)).
Proof.
  assert (raised (call (CallSetStateBytes ex_archive_abc ex_b_factory)
                    sc_session) = Some VectorMismatch) as Hr
    by (vm_compute; reflexivity).
  split; [exact Hr|].
  destruct (proj2 (errors_leave_state _ _ _ Hr))
    as (b & f & state & x & post & Hc & Hread & _ & _ & _ & _ & Hafter).
  injection Hc as <- <-.
  assert (state = ex_doc_abc) as ->.
  { unfold ex_archive_abc in Hread. cbn [z_read] in Hread.
    rewrite decide_True in Hread by reflexivity. congruence. }
  rewrite Hafter. vm_compute. reflexivity.
Defined.

Lemma refine_views_partition_witness :
  raised (refine ex_session) = None ∧
  (∀ t t',
     t ∈ (get_negative_adjudication_relevancy
            (get_positive_adjudication_relevancy
               (after (refine ex_session))).2).1 →
     t' ∈ (get_unadjudicated_relevancy
             (get_negative_adjudication_relevancy
                (get_positive_adjudication_relevancy
                   (after (refine ex_session))).2).2).1 →
     d_key t.1 ≠ d_key t'.1).
Proof.
  assert (raised (refine ex_session) = None) as Hr
    by (vm_compute; reflexivity).
  split; [exact Hr|].
  exact (proj1 (proj2 (proj2 (refine_views_partition ex_session Hr)))).
Defined.

Lemma state_round_trip_witness :
  raised (set_state_bytes (get_state_bytes ex_session) ex_memory_factory
            (reset ex_session)) = None ∧
  positive_descriptors
    (after (set_state_bytes (get_state_bytes ex_session) ex_memory_factory
              (reset ex_session))) = positive_descriptors ex_session.
Proof.
  assert (∀ (m : DSet) u ty v,
            m ∈ [positive_descriptors ex_session;
                 negative_descriptors ex_session;
                 external_positive_descriptors ex_session;
                 external_negative_descriptors ex_session] →
            m !! (u, ty) = Some v →
            ex_memory_factory ty u = None ∨ ex_memory_factory ty u = Some v)
    as Hf by (intros m u ty v _ _; left; reflexivity).
  pose proof (state_round_trip ex_session ex_memory_factory Hf) as H.
  cbv zeta in H. exact (conj (proj1 H) (proj1 (proj2 H))).
Defined.

Lemma seeds_queried_once_witness :
  calls (update_working_set ex_nn_index ex_session) = [] ∧
  after (update_working_set ex_nn_index ex_session) = ex_session.
Proof.
  apply (proj1 seeds_queried_once ex_nn_index ex_session).
  destruct ex_session_ledger as (-> & _ & _ & -> & -> & _).
  intros d. unfold d_set_in, d_key.
  rewrite (left_id_L ∅ (∪)), dom_singleton_L.
  intros [= -> _]%elem_of_singleton. by apply elem_of_singleton.
Defined.

Lemma adjudicate_set_algebra_witness :
  d_set_in ex_x (d_set_of_iterable [ex_x]) ∧
  ¬ d_set_in ex_x
      (positive_descriptors
         (adjudicate (d_set_of_iterable [ex_x]) (d_set_of_iterable [ex_x])
            ∅ ∅ ex_session)) ∧
  ¬ d_set_in ex_x
      (negative_descriptors
         (adjudicate (d_set_of_iterable [ex_x]) (d_set_of_iterable [ex_x])
            ∅ ∅ ex_session)).
Proof.
  assert (d_set_in ex_x (d_set_of_iterable [ex_x])) as Hin.
  { unfold d_set_in. apply elem_of_dom. exists [Q2Qc 1].
    vm_compute. reflexivity. }
  split; [exact Hin|].
  apply (adjudicate_set_algebra (d_set_of_iterable [ex_x])
           (d_set_of_iterable [ex_x]) ∅ ∅ ex_session); exact Hin.
Defined.

(** ** The scenario of the neighbor stub, run *)

Example sc_working_set :
  working_set sc_session = {[ "B" := sc_B; "C" := sc_C ]} ∧
  _wi_seeds_used sc_session = {[ "A" ]} ∧
  rel_index sc_session = Some (mkRelIndex sc_rank (iterdescriptors
                                 (working_set sc_session))).
Proof. split_and!; vm_compute; reflexivity. Qed.

Example sc_second_update :
  calls (update_working_set sc_nn_index sc_session) = [] ∧
  working_set (after (update_working_set sc_nn_index sc_session)) =
    working_set sc_session.
Proof. split_and!; vm_compute; reflexivity. Qed.

Example sc_views :
  (ordered_results (after (refine sc_session))).1 =
    [(sc_B, Q2Qc (9 # 10)); (sc_C, Q2Qc (2 # 10))] ∧
  (get_unadjudicated_relevancy (after (refine sc_session))).1 =
    [(sc_B, Q2Qc (9 # 10)); (sc_C, Q2Qc (2 # 10))] ∧
  (get_positive_adjudication_relevancy (after (refine sc_session))).1 = [] ∧
  (get_negative_adjudication_relevancy (after (refine sc_session))).1 = [].
Proof. split_and!; vm_compute; reflexivity. Qed.

(** Equal scores keep the order of the mapping. *)
Example sc_ties :
  sorted_by_score [(sc_A, Q2Qc 1); (sc_B, Q2Qc 2); (sc_C, Q2Qc 1)] =
  [(sc_B, Q2Qc 2); (sc_A, Q2Qc 1); (sc_C, Q2Qc 1)].
Proof. vm_compute. reflexivity. Qed.

(** * Further properties of the session *)

(** ** Vocabulary *)

(** Calls that load a state archive. *)
Definition imports (c : Call) : bool :=
  match c with
  | CallSetStateBytes _ _ => true
  | _ => false
  end.

(** The elements by which the three partial views filter the view of all
    results: the contributors of the last refinement. *)
Definition in_pos_contrib (s : IqrSession) (t : Scored) : Prop :=
  d_set_in t.1 (d_set_or (rank_contrib_pos s) (rank_contrib_pos_ext s)).
Definition in_neg_contrib (s : IqrSession) (t : Scored) : Prop :=
  d_set_in t.1 (d_set_or (rank_contrib_neg s) (rank_contrib_neg_ext s)).
Definition in_no_contrib (s : IqrSession) (t : Scored) : Prop :=
  ¬ d_set_in t.1
      (d_set_or (d_set_or (d_set_or (rank_contrib_pos s)
                             (rank_contrib_pos_ext s))
                   (rank_contrib_neg s))
         (rank_contrib_neg_ext s)).

Global Instance in_pos_contrib_dec s t : Decision (in_pos_contrib s t).
Proof. unfold in_pos_contrib. apply _. Defined.
Global Instance in_neg_contrib_dec s t : Decision (in_neg_contrib s t).
Proof. unfold in_neg_contrib. apply _. Defined.
Global Instance in_no_contrib_dec s t : Decision (in_no_contrib s t).
Proof. unfold in_no_contrib. apply _. Defined.

(** Each cached partial view, when there is one, is the view of all results
    filtered by the contributors of the last refinement. *)
Definition views_coherent (s : IqrSession) : Prop :=
  (∀ c, _ordered_pos s = Some c →
        c = filter (in_pos_contrib s) (ordered_results s).1) ∧
  (∀ c, _ordered_neg s = Some c →
        c = filter (in_neg_contrib s) (ordered_results s).1) ∧
  (∀ c, _ordered_non_adj s = Some c →
        c = filter (in_no_contrib s) (ordered_results s).1).

(** The relevancy index is there exactly when a seed was used, and it is
    built over the working set as it is now, by the session's
    configuration; without a used seed the working set is empty. *)
Definition index_fresh (s : IqrSession) : Prop :=
  (_wi_seeds_used s = ∅ → working_set s = ∅ ∧ rel_index s = None) ∧
  (_wi_seeds_used s ≠ ∅ →
   rel_index s =
   Some (mkRelIndex (rel_index_config s) (iterdescriptors (working_set s)))).

(** The identity, the fan-out and the configuration of a session. *)
Definition same_identity (s s' : IqrSession) : Prop :=
  session_uuid s' = session_uuid s ∧
  pos_seed_neighbors s' = pos_seed_neighbors s ∧
  rel_index_config s' = rel_index_config s.

(** ** No-ops and repetitions on the ledger *)

(** Equality of two maps built by unions and differences, key by key. *)
Ltac map_cases :=
  apply map_eq; intros ?k;
  repeat (rewrite lookup_difference || rewrite lookup_union);
  repeat match goal with
         | |- context [?m !! ?k] => is_var m; destruct (m !! k) eqn:?
         end; simpl; try done.

Lemma d_set_union_empty (m : DSet) : m ∪ ∅ = m.
Proof. apply (right_id_L _ _). Qed.

Lemma adjudicate_unfold np nn up un s :
  adjudicate np nn up un s =
  let P := ((positive_descriptors s ∪ np) ∖ up) ∖ nn in
  let N := ((negative_descriptors s ∪ nn) ∖ un) ∖ np in
  let pos_changed := negb (bool_decide (dom (positive_descriptors s) = dom P)) in
  let neg_changed := negb (bool_decide (dom (negative_descriptors s) = dom N)) in
  mkSession (session_uuid s) (pos_seed_neighbors s) (working_set s)
    (_wi_seeds_used s) (external_positive_descriptors s)
    (external_negative_descriptors s) P N (rank_contrib_pos s)
    (rank_contrib_pos_ext s) (rank_contrib_neg s) (rank_contrib_neg_ext s)
    (results s) (_ordered_results s)
    (if pos_changed then None else _ordered_pos s)
    (if neg_changed then None else _ordered_neg s)
    (if pos_changed || neg_changed then None else _ordered_non_adj s)
    (rel_index_config s) (rel_index s).
Proof.
  unfold adjudicate, d_set_eqb, d_set_update, d_set_difference_update.
  simpl.
  destruct (negb (bool_decide (dom (positive_descriptors s) = _))); simpl;
    destruct (negb (bool_decide (dom (negative_descriptors s) = _))); simpl;
    reflexivity.
Qed.

Lemma update_difference_twice (P np up nn : DSet) :
  (((((P ∪ np) ∖ up) ∖ nn) ∪ np) ∖ up) ∖ nn = ((P ∪ np) ∖ up) ∖ nn.
Proof. map_cases. Qed.

(** X1: an [adjudicate] with four empty sets leaves the session, caches
    included, exactly as it was; and an [adjudicate] repeated with the same
    arguments changes nothing that the first one did not change. *)
Theorem adjudicate_noop_idempotent :
  (∀ s, adjudicate ∅ ∅ ∅ ∅ s = s) ∧
  (∀ np nn up un s,
     adjudicate np nn up un (adjudicate np nn up un s) =
     adjudicate np nn up un s).
Proof.
  split.
  - intros s. rewrite adjudicate_unfold. cbv zeta.
    rewrite !d_set_union_empty, !map_difference_empty.
    rewrite !bool_decide_eq_true_2 by done. by destruct s.
  - intros np nn up un s. rewrite (adjudicate_unfold np nn up un (adjudicate _ _ _ _ s)).
    rewrite (adjudicate_unfold np nn up un s). cbv zeta. simpl.
    rewrite !update_difference_twice.
    set (P := ((positive_descriptors s ∪ np) ∖ up) ∖ nn).
    set (N := ((negative_descriptors s ∪ nn) ∖ un) ∖ np).
    rewrite (bool_decide_eq_true_2 (dom P = dom P)) by done.
    rewrite (bool_decide_eq_true_2 (dom N = dom N)) by done.
    simpl. reflexivity.
Qed.

Lemma external_unfold p n s :
  external_descriptors p n s =
  set_external_negative ((external_negative_descriptors s ∪ n) ∖ p)
    (set_external_positive ((external_positive_descriptors s ∪ p) ∖ n) s).
Proof. reflexivity. Qed.

Lemma update_difference_again (E p n : DSet) :
  (((E ∪ p) ∖ n) ∪ p) ∖ n = (E ∪ p) ∖ n.
Proof. map_cases. Qed.

Lemma update_difference_contained (E p n F : DSet) :
  dom p ⊆ dom E → dom n ⊆ dom F → dom E ## dom F → (E ∪ p) ∖ n = E.
Proof.
  intros Hp Hn HEF. apply map_eq. intros k.
  rewrite lookup_difference, lookup_union.
  destruct (E !! k) as [v|] eqn:HE.
  - destruct (n !! k) as [w|] eqn:Hnk; [|by destruct (p !! k)].
    exfalso. apply (HEF k); [apply elem_of_dom; eauto|].
    apply Hn, elem_of_dom. eauto.
  - destruct (p !! k) as [w|] eqn:Hpk; [|by destruct (n !! k)].
    assert (k ∈ dom E) as [? ?]%elem_of_dom by (apply Hp, elem_of_dom; eauto).
    congruence.
Qed.

(** X2: [external_descriptors] with two empty sets leaves the session as it
    was; repeated with the same arguments it changes nothing further; and in
    a session whose external sets are disjoint, giving elements that are
    already in the respective external set changes nothing. *)
Theorem external_descriptors_noop_idempotent :
  (∀ s, external_descriptors ∅ ∅ s = s) ∧
  (∀ p n s,
     external_descriptors p n (external_descriptors p n s) =
     external_descriptors p n s) ∧
  (∀ p n s,
     dom p ⊆ dom (external_positive_descriptors s) →
     dom n ⊆ dom (external_negative_descriptors s) →
     dom (external_positive_descriptors s) ##
       dom (external_negative_descriptors s) →
     external_descriptors p n s = s).
Proof.
  split_and!.
  - intros s. rewrite external_unfold.
    rewrite !d_set_union_empty, !map_difference_empty. by destruct s.
  - intros p n s. rewrite (external_unfold p n (external_descriptors p n s)).
    rewrite (external_unfold p n s). simpl.
    by rewrite !update_difference_again.
  - intros p n s Hp Hn Hd. rewrite external_unfold.
    rewrite (update_difference_contained _ p n
               (external_negative_descriptors s)) by done.
    rewrite (update_difference_contained _ n p
               (external_positive_descriptors s)) by done.
    by destruct s.
Qed.

(** ** What [update_working_set] does to the session *)

Lemma add_many_descriptors_dom ds ws :
  dom (add_many_descriptors ds ws) = dom ws ∪ list_to_set (uuid <$> ds).
Proof.
  unfold add_many_descriptors. revert ws.
  induction ds as [|d ds IH]; intros ws; simpl; [set_solver|].
  rewrite IH, dom_insert_L. set_solver.
Qed.

Lemma add_many_descriptors_size ds ws :
  (size (add_many_descriptors ds ws) ≤ size ws + length ds)%nat.
Proof.
  unfold add_many_descriptors. revert ws.
  induction ds as [|d ds IH]; intros ws; simpl; [lia|].
  etrans; [apply IH|]. rewrite map_size_insert.
  destruct (ws !! uuid d); simpl; unfold id; lia.
Qed.

Lemma d_set_in_iter (d : DescriptorElement) (S : DSet) :
  d_set_in d S → ∃ d', d' ∈ d_set_iter S ∧ d_key d' = d_key d.
Proof.
  unfold d_set_in, d_set_iter. intros [v Hv]%elem_of_dom.
  exists (mkDescr (uuid d) (type_str d) v). split; [|done].
  apply list_elem_of_fmap. exists (d_key d, v). split; [done|].
  by apply elem_of_map_to_list.
Qed.

(** The loop, from any accumulator: the seeds marked, the working set grown,
    and the queries made, each for a visited element whose identifier was
    not marked, with the session's fan-out, and with its neighbors in the
    working set at the end. *)
Lemma update_working_set_loop_effect (nn_index : NNIndex) l s updated tr :
  ∃ s1 qs,
    foldl (update_working_set_visit nn_index) (s, updated, tr) l =
      (s1, (updated || bool_decide (qs ≠ [])), tr ++ qs) ∧
    _wi_seeds_used s1 = _wi_seeds_used s ∪ list_to_set (uuid <$> l) ∧
    dom (working_set s) ⊆ dom (working_set s1) ∧
    pos_seed_neighbors s1 = pos_seed_neighbors s ∧
    (qs = [] → s1 = s) ∧
    Forall (λ e, ∃ p, e = EvNN p (pos_seed_neighbors s) ∧ p ∈ l ∧
                      (uuid p ∉ _wi_seeds_used s) ∧
                      ∀ d, d ∈ nn_index p (pos_seed_neighbors s) →
                           uuid d ∈ dom (working_set s1)) qs.
Proof.
  revert s updated tr. induction l as [|a l IH]; intros s updated tr.
  { exists s, []. simpl. rewrite app_nil_r, orb_false_r.
    split_and!; [done|set_solver|done|done|done|constructor]. }
  simpl. destruct (decide (uuid a ∉ _wi_seeds_used s)) as [Ha|Ha].
  - match goal with
    | |- context [foldl _ (?s', true, ?tr') l] =>
      destruct (IH s' true tr') as (s1 & qs & Hf & Hs & Hw & Hn & _ & Hq)
    end.
    simpl in *. exists s1, (EvNN a (pos_seed_neighbors s) :: qs).
    rewrite Hf. split_and!.
    + rewrite orb_true_r. simpl. by rewrite <-app_assoc.
    + rewrite Hs. set_solver.
    + rewrite add_many_descriptors_dom in Hw. set_solver.
    + done.
    + discriminate.
    + constructor.
      * exists a. split_and!; [done|by left|done|].
        intros d Hd. apply Hw. rewrite add_many_descriptors_dom.
        apply elem_of_union_r, elem_of_list_to_set, list_elem_of_fmap.
        by exists d.
      * eapply Forall_impl; [exact Hq|]. simpl.
        intros e (p & -> & Hp & Hnp & Hd). exists p.
        split_and!; [done|by right|set_solver|done].
  - destruct (IH s updated tr) as (s1 & qs & Hf & Hs & Hw & Hn & Hnil & Hq).
    exists s1, qs. rewrite Hf. split_and!; try done.
    + rewrite Hs. apply dec_stable in Ha. set_solver.
    + eapply Forall_impl; [exact Hq|]. simpl.
      intros e (p & -> & Hp & Hnp & Hd). exists p.
      split_and!; [done|by right|done|done].
Qed.

(** X3: [update_working_set] marks as used exactly the identifiers of the
    positive and external positive elements besides those marked before;
    it never removes an identifier from the working set; after it the
    neighbors returned by each query it made are in the working set; and it
    leaves the ledger, the contributor sets, the scores, the four cached
    views and the session's identity, fan-out and configuration as they
    were. *)
Theorem update_working_set_effect (nn_index : NNIndex) (s : IqrSession) :
  let o := update_working_set nn_index s in
  let s' := after o in
  (∀ u, u ∈ _wi_seeds_used s' ↔
        u ∈ _wi_seeds_used s ∨
        ∃ d, d_set_in d (external_positive_descriptors s
                           ∪ positive_descriptors s) ∧ uuid d = u) ∧
  dom (working_set s) ⊆ dom (working_set s') ∧
  (∀ p n d, EvNN p n ∈ calls o → d ∈ nn_index p n →
            uuid d ∈ dom (working_set s')) ∧
  positive_descriptors s' = positive_descriptors s ∧
  negative_descriptors s' = negative_descriptors s ∧
  external_positive_descriptors s' = external_positive_descriptors s ∧
  external_negative_descriptors s' = external_negative_descriptors s ∧
  rank_contrib_pos s' = rank_contrib_pos s ∧
  rank_contrib_pos_ext s' = rank_contrib_pos_ext s ∧
  rank_contrib_neg s' = rank_contrib_neg s ∧
  rank_contrib_neg_ext s' = rank_contrib_neg_ext s ∧
  results s' = results s ∧
  _ordered_results s' = _ordered_results s ∧
  _ordered_pos s' = _ordered_pos s ∧ _ordered_neg s' = _ordered_neg s ∧
  _ordered_non_adj s' = _ordered_non_adj s ∧
  same_identity s s'.
Proof.
  intros o s'.
  assert (∃ ws seeds ri,
            s' = set_rel_index ri (set_wi_seeds_used seeds
                                     (set_working_set ws s)))
    as (ws & seeds & ri & Hfr) by apply update_working_set_frame.
  assert ((∀ u, u ∈ _wi_seeds_used s' ↔
        u ∈ _wi_seeds_used s ∨
        ∃ d, d_set_in d (external_positive_descriptors s
                           ∪ positive_descriptors s) ∧ uuid d = u) ∧
    dom (working_set s) ⊆ dom (working_set s') ∧
    (∀ p n d, EvNN p n ∈ calls o → d ∈ nn_index p n →
              uuid d ∈ dom (working_set s'))) as (H1 & H2 & H3).
  { clear Hfr. subst s' o. unfold update_working_set, d_set_or.
    destruct (decide _) as [He|He]; simpl.
    { apply d_set_empty_size in He. rewrite He. split_and!; [|done|].
      - intros u. split; [by left|]. intros [?|(d & Hd & _)]; [done|].
        unfold d_set_in in Hd. set_solver.
      - by intros p n d ?%elem_of_nil. }
    destruct (update_working_set_loop_effect nn_index
      (d_set_iter (external_positive_descriptors s ∪ positive_descriptors s))
      s false []) as (s1 & qs & Hf & Hs & Hw & Hn & _ & Hq).
    rewrite Hf. simpl.
    assert ((∀ u, u ∈ _wi_seeds_used s1 ↔
        u ∈ _wi_seeds_used s ∨
        ∃ d, d_set_in d (external_positive_descriptors s
                           ∪ positive_descriptors s) ∧ uuid d = u) ∧
      (∀ p n d, EvNN p n ∈ qs → d ∈ nn_index p n →
                uuid d ∈ dom (working_set s1))) as [Hu Hnb].
    { split.
      - intros u. rewrite Hs, elem_of_union, elem_of_list_to_set.
        rewrite list_elem_of_fmap. split.
        + intros [?|(d & -> & Hd)]; [by left|]. right. exists d.
          split; [by apply d_set_iter_in|done].
        + intros [?|(d & Hd & <-)]; [by left|]. right.
          apply d_set_in_iter in Hd as (d' & Hd' & [= Heq _]).
          by exists d'.
      - intros p n d Hp Hd. rewrite Forall_forall in Hq.
        apply Hq in Hp as (p' & [= -> ->] & _ & _ & Hall). by apply Hall. }
    destruct (bool_decide (qs ≠ [])); simpl; split_and!; try done.
    intros p n d [Hp|Hp%list_elem_of_singleton]%elem_of_app; [|done].
    by apply Hnb. }
  rewrite Hfr in *. unfold same_identity. simpl in *. split_and!; done.
Qed.

(** X4: the calls of [update_working_set] are its neighbor queries, each
    for a positive or external positive element whose identifier was not
    marked as used, with the session's fan-out; when it made none, it called
    nothing and left the session as it was; when it made some, they are
    followed by one single build of the relevancy index, over the whole
    working set as it is after the call, and that index is the session's
    index afterwards. *)
Theorem update_working_set_calls (nn_index : NNIndex) (s : IqrSession) :
  let o := update_working_set nn_index s in
  ∃ qs,
    Forall (λ e, ∃ p, e = EvNN p (pos_seed_neighbors s) ∧
                      d_set_in p (external_positive_descriptors s
                                    ∪ positive_descriptors s) ∧
                      uuid p ∉ _wi_seeds_used s) qs ∧
    (qs = [] → calls o = [] ∧ after o = s) ∧
    (qs ≠ [] →
     raised o = None ∧
     calls o = qs ++ [EvBuildIndex (iterdescriptors (working_set (after o)))] ∧
     rel_index (after o) =
       Some (mkRelIndex (rel_index_config s)
               (iterdescriptors (working_set (after o))))).
Proof.
  intros o. subst o. unfold update_working_set, d_set_or.
  destruct (decide _) as [He|He]; simpl.
  { exists []. split_and!; [constructor|done|done]. }
  destruct (update_working_set_loop_effect nn_index
    (d_set_iter (external_positive_descriptors s ∪ positive_descriptors s))
    s false []) as (s1 & qs & Hf & Hs & Hw & Hn & Hnil & Hq).
  rewrite Hf. simpl. exists qs. split_and!.
  - eapply Forall_impl; [exact Hq|]. simpl.
    intros e (p & -> & Hp & Hnp & _). exists p.
    split_and!; [done|by apply d_set_iter_in|done].
  - intros ->. simpl. split; [done|]. by apply Hnil.
  - intros Hne. rewrite bool_decide_eq_true_2 by done. simpl.
    split_and!; [done|done|].
    destruct (update_working_set_loop_frame nn_index
      (d_set_iter (external_positive_descriptors s ∪ positive_descriptors s))
      s false []) as (ws & seeds & Hfr).
    unfold d_set_or in Hfr. rewrite Hf in Hfr. simpl in Hfr. by rewrite Hfr.
Qed.

Lemma update_working_set_loop_size (nn_index : NNIndex) (k : nat) l s
    updated tr :
  (∀ p, length (nn_index p (pos_seed_neighbors s)) ≤ k)%nat →
  let r := foldl (update_working_set_visit nn_index) (s, updated, tr) l in
  (size (working_set r.1.1) + k * length (queried_seeds tr)
   ≤ size (working_set s) + k * length (queried_seeds r.2))%nat.
Proof.
  revert s updated tr. induction l as [|a l IH]; intros s updated tr Hk;
    simpl; [lia|].
  destruct (decide _) as [Ha|Ha]; [|by apply IH].
  match goal with
  | |- context [foldl _ (?s', true, ?tr') l] =>
    pose proof (IH s' true tr' Hk) as Hr
  end.
  simpl in Hr. rewrite queried_seeds_app, length_app in Hr. simpl in Hr.
  pose proof (add_many_descriptors_size
                (nn_index a (pos_seed_neighbors s)) (working_set s)).
  specialize (Hk a). nia.
Qed.

(** X5: when the neighbor index returns at most [k] neighbors per query,
    [update_working_set] grows the working set by at most [k] elements for
    each query it makes. *)
Theorem update_working_set_size (nn_index : NNIndex) (k : nat)
    (s : IqrSession) :
  (∀ p, length (nn_index p (pos_seed_neighbors s)) ≤ k)%nat →
  let o := update_working_set nn_index s in
  (size (working_set (after o))
   ≤ size (working_set s) + k * length (queried_seeds (calls o)))%nat.
Proof.
  intros Hk o. subst o. unfold update_working_set.
  destruct (decide _); simpl; [lia|].
  pose proof (update_working_set_loop_size nn_index k
    (d_set_iter (d_set_or (external_positive_descriptors s)
                          (positive_descriptors s))) s false [] Hk) as Hr.
  destruct (foldl _ _ _) as [[s1 updated] tr]. simpl in Hr.
  destruct updated; simpl; [|lia].
  rewrite queried_seeds_app. simpl. rewrite app_nil_r. lia.
Qed.

(** ** The relevancy index over a session's life *)

Lemma getter_frames s :
  (∃ c, (ordered_results s).2 = set_ordered_results c s) ∧
  (∃ c1 c2, (get_positive_adjudication_relevancy s).2 =
            set_ordered_pos c2 (set_ordered_results c1 s)) ∧
  (∃ c1 c2, (get_negative_adjudication_relevancy s).2 =
            set_ordered_neg c2 (set_ordered_results c1 s)) ∧
  (∃ c1 c2, (get_unadjudicated_relevancy s).2 =
            set_ordered_non_adj c2 (set_ordered_results c1 s)).
Proof.
  assert (∃ c, (ordered_results s).2 = set_ordered_results c s) as Hall.
  { unfold ordered_results. destruct (_ordered_results s) as [c|] eqn:Hc.
    - exists (Some c). destruct s; simpl in *. by subst.
    - destruct (results s).
      + by eexists.
      + exists None. destruct s; simpl in *. by subst. }
  split_and!; [done| | |].
  - unfold get_positive_adjudication_relevancy.
    destruct (_ordered_pos s) as [c|] eqn:Hc.
    + exists (_ordered_results s), (Some c). destruct s; simpl in *. by subst.
    + destruct Hall as [c1 Hc1]. destruct (ordered_results s) as [all s1].
      simpl in *. subst s1. by eexists _, _.
  - unfold get_negative_adjudication_relevancy.
    destruct (_ordered_neg s) as [c|] eqn:Hc.
    + exists (_ordered_results s), (Some c). destruct s; simpl in *. by subst.
    + destruct Hall as [c1 Hc1]. destruct (ordered_results s) as [all s1].
      simpl in *. subst s1. by eexists _, _.
  - unfold get_unadjudicated_relevancy.
    destruct (_ordered_non_adj s) as [c|] eqn:Hc.
    + exists (_ordered_results s), (Some c). destruct s; simpl in *. by subst.
    + destruct Hall as [c1 Hc1]. destruct (ordered_results s) as [all s1].
      simpl in *. subst s1. by eexists _, _.
Qed.

Lemma refine_frame s :
  after (refine s) = s ∨
  ∃ items,
    after (refine s) =
    mkSession (session_uuid s) (pos_seed_neighbors s) (working_set s)
      (_wi_seeds_used s) (external_positive_descriptors s)
      (external_negative_descriptors s) (positive_descriptors s)
      (negative_descriptors s) (positive_descriptors s)
      (external_positive_descriptors s) (negative_descriptors s)
      (external_negative_descriptors s) (Some items) None None None None
      (rel_index_config s) (rel_index s).
Proof.
  unfold refine, rel_index_falsy.
  destruct (rel_index s) as [ri|] eqn:Hri; [|by left].
  destruct (bool_decide _); [by left|].
  destruct (decide _); [by left|]. right. simpl. rewrite <-Hri. by eexists.
Qed.

Lemma call_same_identity c s : same_identity s (after (call c s)).
Proof.
  unfold same_identity. destruct c; simpl; try done.
  - by rewrite adjudicate_unfold.
  - by destruct (update_working_set_frame nn_index s) as (? & ? & ? & ->).
  - by destruct (refine_frame s) as [->|[? ->]].
  - by destruct (getter_frames s) as ([? ->] & _).
  - by destruct (getter_frames s) as (_ & (? & ? & ->) & _).
  - by destruct (getter_frames s) as (_ & _ & (? & ? & ->) & _).
  - by destruct (getter_frames s) as (_ & _ & _ & (? & ? & ->)).
  - by destruct (set_state_bytes_frame b descriptor_factory s)
      as [[_ ->]|[_ (? & ? & ? & ? & ->)]].
Qed.

Lemma update_working_set_index_fresh nn_index s :
  index_fresh s → index_fresh (after (update_working_set nn_index s)).
Proof.
  intros Hs. unfold update_working_set, d_set_or.
  destruct (decide _); [done|].
  destruct (update_working_set_loop_effect nn_index
    (d_set_iter (external_positive_descriptors s ∪ positive_descriptors s))
    s false []) as (s1 & qs & Hf & Hseeds & _ & _ & Hnil & Hq).
  rewrite Hf. destruct qs as [|e qs]; simpl.
  { by rewrite (Hnil eq_refl). }
  unfold index_fresh. simpl. split; [|done].
  intros Hempty. exfalso.
  apply Forall_cons in Hq as [(p & _ & Hp & _) _].
  rewrite Hseeds in Hempty.
  assert (uuid p ∈ (∅ : gset Uid)) as []%elem_of_empty.
  rewrite <-Hempty. apply elem_of_union_r, elem_of_list_to_set.
  apply list_elem_of_fmap. by exists p.
Qed.

Lemma call_index_fresh c s : index_fresh s → index_fresh (after (call c s)).
Proof.
  intros Hs. destruct c; simpl; try done.
  - by rewrite adjudicate_unfold.
  - by apply update_working_set_index_fresh.
  - by destruct (refine_frame s) as [->|[? ->]].
  - by destruct (getter_frames s) as ([? ->] & _).
  - by destruct (getter_frames s) as (_ & (? & ? & ->) & _).
  - by destruct (getter_frames s) as (_ & _ & (? & ? & ->) & _).
  - by destruct (getter_frames s) as (_ & _ & _ & (? & ? & ->)).
  - destruct (set_state_bytes_frame b descriptor_factory s)
      as [[_ ->]|[_ (? & ? & ? & ? & ->)]]; done.
Qed.

Lemma run_index_fresh cs s :
  index_fresh s →
  index_fresh (run cs s).1 ∧ same_identity s (run cs s).1.
Proof.
  intros Hs. induction cs as [|c cs [IH1 IH2]] using rev_ind; [done|].
  rewrite run_snoc. simpl. split; [by apply call_index_fresh|].
  destruct (call_same_identity c (run cs s).1) as (H1 & H2 & H3).
  destruct IH2 as (? & ? & ?). unfold same_identity. split_and!; congruence.
Qed.

Lemma new_session_index_fresh n cfg uid : index_fresh (new_session n cfg uid).
Proof. split; simpl; done. Qed.

(** X6: in every state a session can reach, the relevancy index is absent
    exactly when no seed is marked as used, and then the working set is
    empty; an index that is there was made by the configuration the session
    was created with and is built over exactly the working set as it is;
    and the session's identifier, fan-out and configuration are those it
    was created with. *)
Theorem index_never_stale (cs : list Call) (n : Z) (cfg : RankFn)
    (uid : string) :
  let s := (run cs (new_session n cfg uid)).1 in
  (rel_index s = None ↔ _wi_seeds_used s = ∅) ∧
  (rel_index s = None → working_set s = ∅) ∧
  (∀ ri, rel_index s = Some ri →
         ri_rank ri = cfg ∧ ri_indexed ri = iterdescriptors (working_set s)) ∧
  session_uuid s = uid ∧ pos_seed_neighbors s = n ∧ rel_index_config s = cfg.
Proof.
  intros s.
  destruct (run_index_fresh cs (new_session n cfg uid)
              (new_session_index_fresh n cfg uid))
    as [[Hempty Hsome] (Hu & Hn & Hc)].
  fold s in Hempty, Hsome, Hu, Hn, Hc. simpl in Hu, Hn, Hc.
  destruct (decide (_wi_seeds_used s = ∅)) as [He|He].
  - destruct (Hempty He) as [Hw Hr]. rewrite Hr. split_and!; done.
  - rewrite (Hsome He), Hc. split_and!; try done.
    by intros ri [= <-].
Qed.

Lemma update_working_set_marks_some nn_index s :
  raised (update_working_set nn_index s) = None →
  _wi_seeds_used (after (update_working_set nn_index s)) ≠ ∅.
Proof.
  unfold update_working_set, d_set_or.
  destruct (decide _) as [He|He]; [done|]. intros _.
  destruct (update_working_set_loop_effect nn_index
    (d_set_iter (external_positive_descriptors s ∪ positive_descriptors s))
    s false []) as (s1 & qs & Hf & Hseeds & _).
  rewrite Hf.
  assert (_wi_seeds_used s1 ≠ ∅) as Hne.
  { rewrite Hseeds. unfold d_set_iter.
    destruct (map_to_list (external_positive_descriptors s
                             ∪ positive_descriptors s)) as [|kv l] eqn:Hl.
    - apply map_to_list_empty_iff in Hl. rewrite Hl in He.
      by rewrite map_size_empty in He.
    - simpl. set_solver. }
  by destruct (bool_decide (qs ≠ [])).
Qed.

Lemma iterdescriptors_nil (ws : gmap Uid DescriptorElement) :
  length (iterdescriptors ws) = 0%nat ↔ ws = ∅.
Proof.
  unfold iterdescriptors.
  rewrite length_fmap, length_map_to_list. apply map_size_empty_iff.
Qed.

(** X7: in every state a session can reach, an [update_working_set] that
    returns normally is followed by a [refine] that returns normally when
    the working set is not empty after the update; when the update leaves
    the working set empty, because no query found a neighbor, the [refine]
    raises the not-initialised error and leaves the session as it is. *)
Theorem update_then_refine (cs : list Call) (n : Z) (cfg : RankFn)
    (uid : string) (nn_index : NNIndex) :
  let s := (run cs (new_session n cfg uid)).1 in
  raised (update_working_set nn_index s) = None →
  let s' := after (update_working_set nn_index s) in
  (working_set s' ≠ ∅ → raised (refine s') = None) ∧
  (working_set s' = ∅ →
   raised (refine s') = Some NotInitialized ∧ after (refine s') = s').
Proof.
  intros s Hok s'.
  assert (index_fresh s') as [_ Hsome].
  { apply update_working_set_index_fresh, run_index_fresh,
      new_session_index_fresh. }
  pose proof (update_working_set_marks_some nn_index s Hok) as Hne.
  fold s' in Hne. specialize (Hsome Hne).
  assert (positive_descriptors s' ∪ external_positive_descriptors s' ≠ ∅)
    as Hpos.
  { subst s'.
    destruct (update_working_set_frame nn_index s) as (ws & sd & ri & ->).
    simpl. unfold update_working_set, d_set_or in Hok.
    destruct (decide (size (external_positive_descriptors s
                              ∪ positive_descriptors s) = 0%nat))
      as [He|He]; [done|].
    intros He'. apply He. apply d_set_empty_size.
    apply map_eq. intros k.
    apply (f_equal (λ m : DSet, m !! k)) in He'.
    rewrite lookup_union, lookup_empty in *.
    by destruct (positive_descriptors s !! k),
                (external_positive_descriptors s !! k). }
  unfold refine, rel_index_falsy, rel_index_len, refine_pos, d_set_or.
  rewrite Hsome. cbn [ri_indexed].
  split.
  - intros Hws. rewrite bool_decide_eq_false_2.
    2:{ by intros ?%iterdescriptors_nil. }
    destruct (decide _) as [He|He]; [|done].
    by apply d_set_empty_size in He.
  - intros Hws. rewrite bool_decide_eq_true_2; [done|].
    by apply iterdescriptors_nil.
Qed.

Lemma update_then_refine_witness :
  raised (update_working_set ex_nn_index
            (run ex_ledger_calls (new_session 2 ex_rank "sid")).1) = None ∧
  raised (refine (after (update_working_set ex_nn_index
            (run ex_ledger_calls (new_session 2 ex_rank "sid")).1))) = None.
Proof.
  assert (raised (update_working_set ex_nn_index
            (run ex_ledger_calls (new_session 2 ex_rank "sid")).1) = None)
    as Hok by (vm_compute; reflexivity).
  assert (working_set (after (update_working_set ex_nn_index
            (run ex_ledger_calls (new_session 2 ex_rank "sid")).1)) ≠ ∅)
    as Hws.
  { intros H. apply (f_equal size) in H. vm_compute in H. discriminate H. }
  split; [exact Hok|].
  exact (proj1 (update_then_refine ex_ledger_calls 2 ex_rank "sid"
                  ex_nn_index Hok) Hws).
Defined.

Lemma update_working_set_size_witness :
  (∀ p, length (ex_nn_index p (pos_seed_neighbors sc_session)) ≤ 1)%nat ∧
  (size (working_set (after (update_working_set ex_nn_index sc_session)))
   ≤ size (working_set sc_session)
     + 1 * length (queried_seeds
                     (calls (update_working_set ex_nn_index sc_session))))%nat.
Proof.
  assert (∀ p, length (ex_nn_index p (pos_seed_neighbors sc_session)) ≤ 1)%nat
    as Hk by (intros p; simpl; lia).
  split; [exact Hk|].
  exact (update_working_set_size ex_nn_index 1 sc_session Hk).
Defined.

(** ** The three partial views *)

Lemma ordered_results_again s :
  ordered_results (ordered_results s).2 =
  ((ordered_results s).1, (ordered_results s).2).
Proof.
  unfold ordered_results.
  destruct (_ordered_results s) as [c|] eqn:Hc; simpl; [by rewrite Hc|].
  destruct (results s) as [r|] eqn:Hr; simpl; [done|]. by rewrite Hc, Hr.
Qed.

Lemma StronglySorted_filter {A} (R : relation A) (P : A → Prop)
    `{!∀ x, Decision (P x)} l :
  StronglySorted R l → StronglySorted R (filter P l).
Proof.
  induction 1 as [|x l Hl IH Hx]; [constructor|].
  rewrite filter_cons. destruct (decide (P x)); [|done].
  constructor; [done|].
  rewrite Forall_forall in *. intros y [_ Hy]%list_elem_of_filter. auto.
Qed.

Lemma ordered_results_sorted s :
  cache_coherent s → StronglySorted score_ge (ordered_results s).1.
Proof.
  unfold cache_coherent, ordered_results.
  destruct (_ordered_results s) as [c|]; simpl.
  - intros (r & _ & ->).
    apply Sorted_StronglySorted; [apply _|apply sorted_by_score_sorted].
  - intros _. destruct (results s); simpl; [|constructor].
    apply Sorted_StronglySorted; [apply _|apply sorted_by_score_sorted].
Qed.

Lemma ordered_results_no_scores s :
  cache_coherent s → results s = None → (ordered_results s).1 = [].
Proof.
  unfold cache_coherent, ordered_results. intros Hco Hr.
  destruct (_ordered_results s) as [c|]; simpl.
  - destruct Hco as (r & Hr' & _). congruence.
  - by rewrite Hr.
Qed.

(** What the three getters return in a session whose caches are coherent. *)
Lemma getters_filter s :
  views_coherent s →
  (get_positive_adjudication_relevancy s).1 =
    filter (in_pos_contrib s) (ordered_results s).1 ∧
  (get_negative_adjudication_relevancy s).1 =
    filter (in_neg_contrib s) (ordered_results s).1 ∧
  (get_unadjudicated_relevancy s).1 =
    filter (in_no_contrib s) (ordered_results s).1.
Proof.
  intros (Hp & Hn & Hu).
  unfold get_positive_adjudication_relevancy,
    get_negative_adjudication_relevancy, get_unadjudicated_relevancy.
  split_and!.
  - destruct (_ordered_pos s) as [c|]; simpl; [by apply Hp|].
    by destruct (ordered_results s).
  - destruct (_ordered_neg s) as [c|]; simpl; [by apply Hn|].
    by destruct (ordered_results s).
  - destruct (_ordered_non_adj s) as [c|]; simpl; [by apply Hu|].
    by destruct (ordered_results s).
Qed.

(** Coherence of the caches read off the fields it depends on. *)
Ltac views_fields :=
  unfold views_coherent, in_pos_contrib, in_neg_contrib, in_no_contrib,
    get_positive_adjudication_relevancy, get_negative_adjudication_relevancy,
    get_unadjudicated_relevancy, ordered_results in *;
  simpl in *.

Lemma call_views_coherent c s :
  views_coherent s → views_coherent (after (call c s)).
Proof.
  intros Hs. destruct c; simpl.
  - destruct s as [? ? ? ? ? ? ? ? ? ? ? ? [r|] [c|] ? ? ?]; views_fields;
      done.
  - rewrite adjudicate_unfold. cbv zeta.
    destruct (negb (bool_decide (dom (positive_descriptors s) = _)));
      destruct (negb (bool_decide (dom (negative_descriptors s) = _)));
      destruct s as [? ? ? ? ? ? ? ? ? ? ? ? [r|] [c|] ? ? ?]; views_fields;
      naive_solver.
  - destruct (update_working_set_frame nn_index s) as (? & ? & ? & ->).
    destruct s as [? ? ? ? ? ? ? ? ? ? ? ? [r|] [c|] ? ? ?]; views_fields;
      done.
  - destruct (refine_frame s) as [->|[? ->]]; [done|].
    views_fields. naive_solver.
  - destruct s as [? ? ? ? ? ? ? ? ? ? ? ? [r|] [c|] ? ? ?]; views_fields;
      done.
  - destruct s as [? ? ? ? ? ? ? ? ? ? ? ? [r|] [c|] [cp|] ? ?]; views_fields;
      naive_solver.
  - destruct s as [? ? ? ? ? ? ? ? ? ? ? ? [r|] [c|] ? [cn|] ?]; views_fields;
      naive_solver.
  - destruct s as [? ? ? ? ? ? ? ? ? ? ? ? [r|] [c|] ? ? [cu|]]; views_fields;
      naive_solver.
  - views_fields. naive_solver.
  - done.
  - destruct (set_state_bytes_frame b descriptor_factory s)
      as [[_ ->]|[_ (? & ? & ? & ? & ->)]]; [done|].
    views_fields. naive_solver.
Qed.

Lemma run_views_coherent cs s : views_coherent s → views_coherent (run cs s).1.
Proof.
  induction cs as [|c cs IH] using rev_ind; intros Hs; [done|].
  rewrite run_snoc. simpl. apply call_views_coherent; auto.
Qed.

Lemma new_session_coherent n cfg uid :
  views_coherent (new_session n cfg uid) ∧
  cache_coherent (new_session n cfg uid).
Proof. split; [|done]. unfold views_coherent. simpl. naive_solver. Qed.

(** X8: in every state a session can reach, each of the three partial views
    is the view of all results filtered by the contributors of the last
    refinement (positive with external positive, negative with external
    negative, none of the four), so each is a sublist of the view of all
    results; each is ordered by descending score; and while there are no
    scores all three are empty. *)
Theorem partial_views_descending (cs : list Call) (n : Z) (cfg : RankFn)
    (uid : string) :
  let s := (run cs (new_session n cfg uid)).1 in
  let all := (ordered_results s).1 in
  let pos := (get_positive_adjudication_relevancy s).1 in
  let neg := (get_negative_adjudication_relevancy s).1 in
  let non := (get_unadjudicated_relevancy s).1 in
  pos = filter (in_pos_contrib s) all ∧
  neg = filter (in_neg_contrib s) all ∧
  non = filter (in_no_contrib s) all ∧
  pos `sublist_of` all ∧ neg `sublist_of` all ∧ non `sublist_of` all ∧
  StronglySorted score_ge pos ∧ StronglySorted score_ge neg ∧
  StronglySorted score_ge non ∧
  (results s = None → pos = [] ∧ neg = [] ∧ non = []).
Proof.
  intros s all pos neg non.
  destruct (new_session_coherent n cfg uid) as [Hv Hc].
  apply (run_views_coherent cs) in Hv. apply (run_coherent cs) in Hc.
  fold s in Hv, Hc.
  destruct (getters_filter s Hv) as (Hp & Hn & Hu).
  fold all pos in Hp. fold all neg in Hn. fold all non in Hu.
  pose proof (ordered_results_sorted s Hc) as Hsorted. fold all in Hsorted.
  rewrite Hp, Hn, Hu.
  split_and!; try done; try apply sublist_filter;
    try (by apply StronglySorted_filter).
  intros Hr. unfold all. by rewrite (ordered_results_no_scores s Hc Hr).
Qed.

Lemma ordered_results_fst s :
  (ordered_results s).1 =
  match _ordered_results s with
  | Some cached => cached
  | None => match results s with
            | Some items => sorted_by_score items
            | None => []
            end
  end.
Proof.
  unfold ordered_results. destruct (_ordered_results s); [done|].
  by destruct (results s).
Qed.

(** The fields the four views are computed from. *)
Lemma views_agree s s' :
  views_coherent s → views_coherent s' →
  results s' = results s → _ordered_results s' = _ordered_results s →
  rank_contrib_pos s' = rank_contrib_pos s →
  rank_contrib_pos_ext s' = rank_contrib_pos_ext s →
  rank_contrib_neg s' = rank_contrib_neg s →
  rank_contrib_neg_ext s' = rank_contrib_neg_ext s →
  (ordered_results s').1 = (ordered_results s).1 ∧
  (get_positive_adjudication_relevancy s').1 =
    (get_positive_adjudication_relevancy s).1 ∧
  (get_negative_adjudication_relevancy s').1 =
    (get_negative_adjudication_relevancy s).1 ∧
  (get_unadjudicated_relevancy s').1 = (get_unadjudicated_relevancy s).1.
Proof.
  intros Hs Hs' Hr Ho Hp Hpe Hn Hne.
  assert ((ordered_results s').1 = (ordered_results s).1) as Hall.
  { by rewrite !ordered_results_fst, Hr, Ho. }
  destruct (getters_filter s Hs) as (-> & -> & ->).
  destruct (getters_filter s' Hs') as (-> & -> & ->).
  rewrite Hall. split_and!; [done| | |]; apply list_filter_iff; intros t;
    unfold in_pos_contrib, in_neg_contrib, in_no_contrib;
    by rewrite ?Hp, ?Hpe, ?Hn, ?Hne.
Qed.

(** X9: in every state a session can reach, an [adjudicate] or an
    [external_descriptors] changes none of the lists that the four views
    return: the views show the adjudications as they were at the last
    refinement until the next one. *)
Theorem ledger_calls_keep_views (cs : list Call) (n : Z) (cfg : RankFn)
    (uid : string) (c : Call) :
  ledger_call c = true →
  let s := (run cs (new_session n cfg uid)).1 in
  let s' := after (call c s) in
  (ordered_results s').1 = (ordered_results s).1 ∧
  (get_positive_adjudication_relevancy s').1 =
    (get_positive_adjudication_relevancy s).1 ∧
  (get_negative_adjudication_relevancy s').1 =
    (get_negative_adjudication_relevancy s).1 ∧
  (get_unadjudicated_relevancy s').1 = (get_unadjudicated_relevancy s).1.
Proof.
  intros Hc s s'.
  assert (views_coherent s) as Hs.
  { apply run_views_coherent, new_session_coherent. }
  assert (views_coherent s') as Hs' by (by apply call_views_coherent).
  apply views_agree; try done; subst s'; destruct c; try discriminate;
    simpl; try done; by rewrite adjudicate_unfold.
Qed.

Lemma ledger_calls_keep_views_witness :
  ledger_call (CallAdjudicate ∅ (d_set_of_iterable [sc_B]) ∅ ∅) = true ∧
  (get_unadjudicated_relevancy
     (after (call (CallAdjudicate ∅ (d_set_of_iterable [sc_B]) ∅ ∅)
               (run [CallAdjudicate (d_set_of_iterable [sc_A]) ∅ ∅ ∅;
                     CallUpdateWorkingSet sc_nn_index; CallRefine]
                  (new_session 2 sc_rank "sid")).1))).1 =
  (get_unadjudicated_relevancy
     (run [CallAdjudicate (d_set_of_iterable [sc_A]) ∅ ∅ ∅;
           CallUpdateWorkingSet sc_nn_index; CallRefine]
        (new_session 2 sc_rank "sid")).1).1.
Proof.
  split; [reflexivity|].
  exact (proj2 (proj2 (proj2
    (ledger_calls_keep_views
       [CallAdjudicate (d_set_of_iterable [sc_A]) ∅ ∅ ∅;
        CallUpdateWorkingSet sc_nn_index; CallRefine]
       2 sc_rank "sid"
       (CallAdjudicate ∅ (d_set_of_iterable [sc_B]) ∅ ∅) eq_refl)))).
Defined.

(** X10: a view read twice in a row returns the same list twice and the
    second read leaves the session as the first one left it; and a read
    writes nothing but the caches: the ledger, the contributor sets, the
    scores, the working set, the used seeds and the relevancy index stay. *)
Theorem views_read_stable (s : IqrSession) :
  ordered_results (ordered_results s).2 = ordered_results s ∧
  get_positive_adjudication_relevancy
    (get_positive_adjudication_relevancy s).2 =
    get_positive_adjudication_relevancy s ∧
  get_negative_adjudication_relevancy
    (get_negative_adjudication_relevancy s).2 =
    get_negative_adjudication_relevancy s ∧
  get_unadjudicated_relevancy (get_unadjudicated_relevancy s).2 =
    get_unadjudicated_relevancy s ∧
  (∀ s', s' ∈ [(ordered_results s).2;
               (get_positive_adjudication_relevancy s).2;
               (get_negative_adjudication_relevancy s).2;
               (get_unadjudicated_relevancy s).2] →
     positive_descriptors s' = positive_descriptors s ∧
     negative_descriptors s' = negative_descriptors s ∧
     external_positive_descriptors s' = external_positive_descriptors s ∧
     external_negative_descriptors s' = external_negative_descriptors s ∧
     rank_contrib_pos s' = rank_contrib_pos s ∧
     rank_contrib_pos_ext s' = rank_contrib_pos_ext s ∧
     rank_contrib_neg s' = rank_contrib_neg s ∧
     rank_contrib_neg_ext s' = rank_contrib_neg_ext s ∧
     results s' = results s ∧ working_set s' = working_set s ∧
     _wi_seeds_used s' = _wi_seeds_used s ∧ rel_index s' = rel_index s).
Proof.
  split_and!.
  - rewrite ordered_results_again. by destruct (ordered_results s).
  - unfold get_positive_adjudication_relevancy.
    destruct (_ordered_pos s) as [c|] eqn:Hc; simpl; [by rewrite Hc|].
    by destruct (ordered_results s).
  - unfold get_negative_adjudication_relevancy.
    destruct (_ordered_neg s) as [c|] eqn:Hc; simpl; [by rewrite Hc|].
    by destruct (ordered_results s).
  - unfold get_unadjudicated_relevancy.
    destruct (_ordered_non_adj s) as [c|] eqn:Hc; simpl; [by rewrite Hc|].
    by destruct (ordered_results s).
  - destruct (getter_frames s)
      as ((c & Ha) & (c1 & c2 & Hp) & (c3 & c4 & Hn) & (c5 & c6 & Hu)).
    intros s' Hs'. rewrite !elem_of_cons, elem_of_nil in Hs'.
    destruct Hs' as [->|[->|[->|[->|[]]]]];
      [rewrite Ha|rewrite Hp|rewrite Hn|rewrite Hu]; done.
Qed.

(** ** Ties in the view of all results *)

Lemma insert_by_score_ties x l (q : Qc) :
  filter (λ t : Scored, t.2 = q) (insert_by_score x l) =
  filter (λ t : Scored, t.2 = q) (x :: l).
Proof.
  induction l as [|y l IH]; simpl; [done|].
  destruct (decide (y.2 ≤ x.2)%Qc) as [Hle|Hnle]; [done|].
  rewrite (filter_cons _ y), IH, !(filter_cons _ x), (filter_cons _ y).
  destruct (decide (y.2 = q)) as [Hy|Hy]; destruct (decide (x.2 = q))
    as [Hx|Hx]; try done.
  exfalso. apply Hnle. rewrite Hy, Hx. apply Qcle_refl.
Qed.

Lemma sorted_by_score_ties l (q : Qc) :
  filter (λ t : Scored, t.2 = q) (sorted_by_score l) =
  filter (λ t : Scored, t.2 = q) l.
Proof.
  induction l as [|x l IH]; simpl; [done|].
  by rewrite insert_by_score_ties, !filter_cons, IH.
Qed.

Lemma ordered_results_scores s items :
  cache_coherent s → results s = Some items →
  (ordered_results s).1 = sorted_by_score items.
Proof.
  unfold cache_coherent. intros Hco Hr. rewrite ordered_results_fst.
  destruct (_ordered_results s) as [c|].
  - destruct Hco as (r & Hr' & ->). congruence.
  - by rewrite Hr.
Qed.

(** X11: in every state a session can reach, the items of any one score
    stand in the view of all results in the order in which the score
    mapping yields them: the sort is stable. *)
Theorem ordered_results_ties (cs : list Call) (n : Z) (cfg : RankFn)
    (uid : string) :
  let s := (run cs (new_session n cfg uid)).1 in
  ∀ items (q : Qc),
    results s = Some items →
    filter (λ t : Scored, t.2 = q) (ordered_results s).1 =
    filter (λ t : Scored, t.2 = q) items.
Proof.
  intros s items q Hr.
  rewrite (ordered_results_scores s items); [apply sorted_by_score_ties| |done].
  apply run_coherent. by apply new_session_coherent.
Qed.

(** ** Reset *)

(** X12: [reset] leaves the session as [__init__] makes it for the same
    identifier, fan-out and configuration; a second [reset] changes nothing;
    and in a session that was reset [update_working_set] raises for want of
    positive examples, [refine] raises for want of an index, and the four
    views are empty. *)
Theorem reset_is_fresh (s : IqrSession) :
  reset s =
    new_session (pos_seed_neighbors s) (rel_index_config s) (session_uuid s) ∧
  reset (reset s) = reset s ∧
  (∀ nn_index : NNIndex,
     raised (update_working_set nn_index (reset s)) = Some NoPositiveExamples ∧
     after (update_working_set nn_index (reset s)) = reset s) ∧
  raised (refine (reset s)) = Some NotInitialized ∧
  (ordered_results (reset s)).1 = [] ∧
  (get_positive_adjudication_relevancy (reset s)).1 = [] ∧
  (get_negative_adjudication_relevancy (reset s)).1 = [] ∧
  (get_unadjudicated_relevancy (reset s)).1 = [].
Proof.
  split_and!; try reflexivity.
  intros nn_index. unfold update_working_set, d_set_or. simpl.
  rewrite decide_True; [done|].
  rewrite d_set_union_empty. apply map_size_empty.
Qed.

(** ** Import and export of the state *)

Lemma load_source_raised (factory : DescriptorElementFactory)
    (l : list Triple) (t : DSet) :
  (load_source factory l t).1 =
  if decide (Forall (loads_cleanly factory) l) then None
  else Some VectorMismatch.
Proof.
  revert t. induction l as [|[[u ty] v] l IH]; intros t; cbn [load_source].
  { by rewrite decide_True. }
  unfold load_descriptor.
  destruct (factory ty u) as [w|] eqn:Hf.
  - destruct (decide (w = v)) as [->|Hne].
    + rewrite IH. destruct (decide (Forall _ l)) as [Hl|Hl].
      * rewrite decide_True; [done|]. constructor; [|done]. by right.
      * rewrite decide_False; [done|]. by intros [_ ?]%Forall_cons.
    + simpl. rewrite decide_False; [done|].
      intros [[Hc|Hc] _]%Forall_cons; unfold loads_cleanly in *; simpl in *;
        congruence.
  - rewrite IH. destruct (decide (Forall _ l)) as [Hl|Hl].
    + rewrite decide_True; [done|]. constructor; [|done]. by left.
    + rewrite decide_False; [done|]. by intros [_ ?]%Forall_cons.
Qed.

Lemma set_state_bytes_raised b factory s state :
  STATE_ZIP_FILENAME ∈ namelist b →
  z_read STATE_ZIP_FILENAME b = Some state →
  raised (set_state_bytes b factory s) =
  if decide (Forall (loads_cleanly factory) (doc_load_order state)) then None
  else Some VectorMismatch.
Proof.
  intros Hin Hread. unfold set_state_bytes, doc_load_order.
  rewrite decide_False by (by intros ?). rewrite Hread. simpl.
  pose proof (load_source_raised factory (doc_external_pos state) ∅) as H1.
  pose proof (load_source_raised factory (doc_external_neg state) ∅) as H2.
  pose proof (load_source_raised factory (doc_pos state) ∅) as H3.
  pose proof (load_source_raised factory (doc_neg state) ∅) as H4.
  destruct (load_source factory (doc_external_pos state) ∅) as [e1 t1].
  destruct (load_source factory (doc_external_neg state) ∅) as [e2 t2].
  destruct (load_source factory (doc_pos state) ∅) as [e3 t3].
  destruct (load_source factory (doc_neg state) ∅) as [e4 t4].
  simpl in *. subst.
  destruct (decide (Forall _ (doc_external_pos state))) as [F1|F1]; simpl.
  2:{ rewrite decide_False; [done|]. by intros [? _]%Forall_app. }
  destruct (decide (Forall _ (doc_external_neg state))) as [F2|F2]; simpl.
  2:{ rewrite decide_False; [done|].
      by intros [_ [? _]%Forall_app]%Forall_app. }
  destruct (decide (Forall _ (doc_pos state))) as [F3|F3]; simpl.
  2:{ rewrite decide_False; [done|].
      by intros [_ [_ [? _]%Forall_app]%Forall_app]%Forall_app. }
  destruct (decide (Forall _ (doc_neg state))) as [F4|F4]; simpl.
  - rewrite decide_True; [done|]. by rewrite !Forall_app.
  - rewrite decide_False; [done|].
    by intros [_ [_ [_ ?]%Forall_app]%Forall_app]%Forall_app.
Qed.

(** X13: [set_state_bytes] raises the invalid-archive error exactly when the
    archive has no entry of the state file's name, and it then leaves the
    session as it found it, having called no collaborator; on an archive
    whose state file holds a document of four lists of triples, the import
    raises the vector mismatch exactly when for some stored triple the
    factory's element carries a vector other than the stored one, and it
    returns normally exactly when there is no such triple. *)
Theorem import_errors (b : Archive) (factory : DescriptorElementFactory)
    (s : IqrSession) :
  (raised (set_state_bytes b factory s) = Some InvalidStateArchive ↔
   STATE_ZIP_FILENAME ∉ namelist b) ∧
  (STATE_ZIP_FILENAME ∉ namelist b →
   after (set_state_bytes b factory s) = s ∧
   calls (set_state_bytes b factory s) = []) ∧
  (∀ state, z_read STATE_ZIP_FILENAME b = Some state →
     (raised (set_state_bytes b factory s) = Some VectorMismatch ↔
      ¬ Forall (loads_cleanly factory) (doc_load_order state)) ∧
     (raised (set_state_bytes b factory s) = None ↔
      Forall (loads_cleanly factory) (doc_load_order state))).
Proof.
  assert (∀ state, z_read STATE_ZIP_FILENAME b = Some state →
      raised (set_state_bytes b factory s) =
      if decide (Forall (loads_cleanly factory) (doc_load_order state))
      then None else Some VectorMismatch) as Hin.
  { intros state Hst. apply set_state_bytes_raised; [|done].
    apply z_read_namelist. by exists state. }
  split_and!.
  - split.
    + intros Hr Hn. destruct (proj1 (z_read_namelist _ _) Hn) as [state Hst].
      rewrite (Hin state Hst) in Hr. by destruct (decide _).
    + intros Hn. unfold set_state_bytes. by rewrite decide_True.
  - intros Hn. unfold set_state_bytes. by rewrite decide_True.
  - intros state Hst. rewrite (Hin state Hst).
    destruct (decide _); split; done.
Qed.

(** X14: what [set_state_bytes] leaves depends on the session it is called
    on only through the identifier, the fan-out and the configuration:
    whenever the archive has the state file, the import gives what it gives
    on a newly made session with these three. *)
Theorem import_forgets (b : Archive) (factory : DescriptorElementFactory)
    (s : IqrSession) :
  STATE_ZIP_FILENAME ∈ namelist b →
  set_state_bytes b factory s =
  set_state_bytes b factory
    (new_session (pos_seed_neighbors s) (rel_index_config s)
       (session_uuid s)).
Proof.
  intros Hin. unfold set_state_bytes. rewrite !decide_False by (by intros ?).
  destruct (proj1 (z_read_namelist _ _) Hin) as [state ->]. reflexivity.
Qed.

Lemma import_forgets_witness :
  STATE_ZIP_FILENAME ∈ namelist (get_state_bytes ex_session) ∧
  set_state_bytes (get_state_bytes ex_session) ex_memory_factory sc_session =
  set_state_bytes (get_state_bytes ex_session) ex_memory_factory
    (new_session (pos_seed_neighbors sc_session)
       (rel_index_config sc_session) (session_uuid sc_session)).
Proof.
  assert (STATE_ZIP_FILENAME ∈ namelist (get_state_bytes ex_session)) as Hin
    by (simpl; left).
  split; [exact Hin|].
  exact (import_forgets (get_state_bytes ex_session) ex_memory_factory
           sc_session Hin).
Defined.

Lemma list_to_map_first (l1 l2 : list (DKey * Vec)) k v :
  k ∉ l1.*1 →
  (list_to_map (l1 ++ (k, v) :: l2) : DSet) !! k = Some v.
Proof.
  induction l1 as [|[k' v'] l1 IH]; simpl; intros Hk.
  - apply lookup_insert_eq.
  - rewrite lookup_insert_ne; [apply IH|]; set_solver.
Qed.

(** X15: when the archive has the state file and the factory's element for
    every stored triple carries no vector or the stored one, the import
    returns normally and leaves in each ledger set exactly the identities
    listed in the corresponding field, and for an identity listed more than
    once the vector of the first listing; this holds whether or not a field
    lists an identity that another field lists too. *)
Theorem import_loads (b : Archive) (factory : DescriptorElementFactory)
    (s : IqrSession) (state : StateDoc) :
  STATE_ZIP_FILENAME ∈ namelist b →
  z_read STATE_ZIP_FILENAME b = Some state →
  Forall (loads_cleanly factory) (doc_load_order state) →
  let o := set_state_bytes b factory s in
  let loaded (l : list Triple) : DSet :=
    list_to_map ((λ x, (triple_key x, x.2)) <$> l) in
  raised o = None ∧
  positive_descriptors (after o) = loaded (doc_pos state) ∧
  negative_descriptors (after o) = loaded (doc_neg state) ∧
  external_positive_descriptors (after o) = loaded (doc_external_pos state) ∧
  external_negative_descriptors (after o) = loaded (doc_external_neg state) ∧
  (∀ l k, k ∈ dom (loaded l) ↔ k ∈ triple_key <$> l) ∧
  (∀ l1 x l2, triple_key x ∉ triple_key <$> l1 →
              loaded (l1 ++ x :: l2) !! triple_key x = Some x.2).
Proof.
  intros Hin Hread Hall o loaded. subst o.
  unfold doc_load_order in Hall.
  apply Forall_app in Hall as [F1 [F2 [F3 F4]%Forall_app]%Forall_app].
  assert (∀ l t, Forall (loads_cleanly factory) l →
            load_source factory l t = (None, t ∪ loaded l)) as Hload.
  { intros l t Hl. apply load_source_consistent.
    intros u ty v Hx. rewrite Forall_forall in Hl. apply (Hl _ Hx). }
  unfold set_state_bytes. rewrite decide_False by (by intros ?).
  rewrite Hread. simpl. rewrite !Hload by done. simpl.
  assert (∀ m : DSet, ∅ ∪ m = m) as Hl by (intros m; apply (left_id_L _ _)).
  rewrite !Hl. split_and!; try done.
  - intros l k. unfold loaded. rewrite dom_list_to_map_L, elem_of_list_to_set.
    by rewrite <-list_fmap_compose.
  - intros l1 x l2 Hx. unfold loaded. rewrite fmap_app, fmap_cons.
    apply list_to_map_first. by rewrite <-list_fmap_compose.
Qed.

(** A state document that lists one identity twice, with two vectors. *)
Definition ex_doc : StateDoc :=
  {| doc_pos := [("x", "t", [Q2Qc 1]); ("x", "t", [Q2Qc 0])];
     doc_neg := [("x", "t", [Q2Qc 1])];
     doc_external_pos := [];
     doc_external_neg := [] |}.

Lemma import_loads_witness :
  raised (set_state_bytes [(STATE_ZIP_FILENAME, ex_doc)] ex_memory_factory
            sc_session) = None ∧
  positive_descriptors
    (after (set_state_bytes [(STATE_ZIP_FILENAME, ex_doc)] ex_memory_factory
              sc_session)) =
  list_to_map ((λ x, (triple_key x, x.2)) <$> doc_pos ex_doc).
Proof.
  assert (STATE_ZIP_FILENAME ∈ namelist [(STATE_ZIP_FILENAME, ex_doc)]) as Hin
    by (simpl; left).
  assert (z_read STATE_ZIP_FILENAME [(STATE_ZIP_FILENAME, ex_doc)]
          = Some ex_doc) as Hread by (vm_compute; reflexivity).
  assert (Forall (loads_cleanly ex_memory_factory) (doc_load_order ex_doc))
    as Hall by (repeat constructor).
  pose proof (import_loads [(STATE_ZIP_FILENAME, ex_doc)] ex_memory_factory
                sc_session ex_doc Hin Hread Hall) as H.
  cbv zeta in H. exact (conj (proj1 H) (proj1 (proj2 H))).
Defined.

Lemma d_set_to_list_spec (m : DSet) :
  (∀ u ty v, (u, ty, v) ∈ d_set_to_list m ↔ m !! (u, ty) = Some v) ∧
  NoDup (triple_key <$> d_set_to_list m) ∧
  length (d_set_to_list m) = size m.
Proof.
  unfold d_set_to_list, d_set_iter. rewrite <-!list_fmap_compose.
  split_and!.
  - intros u ty v. rewrite list_elem_of_fmap. split.
    + intros ([[u' ty'] v'] & [= -> -> ->] & Hin).
      by apply elem_of_map_to_list.
    + intros Hm. exists ((u, ty), v). split; [done|].
      by apply elem_of_map_to_list.
  - rewrite (list_fmap_ext _ fst (map_to_list m));
      [apply NoDup_fst_map_to_list|].
    by intros i [[u ty] v] _.
  - by rewrite length_fmap, length_map_to_list.
Qed.

(** X16: the archive that [get_state_bytes] makes has the one entry of the
    state file's name, and each of its four fields lists the elements of
    the corresponding ledger set, identifier, type and vector, each element
    once. *)
Theorem export_lists_ledger (s : IqrSession) :
  ∃ doc,
    get_state_bytes s = [(STATE_ZIP_FILENAME, doc)] ∧
    z_read STATE_ZIP_FILENAME (get_state_bytes s) = Some doc ∧
    ∀ (field : StateDoc → list Triple) (set : IqrSession → DSet),
      (field, set) ∈ [(doc_pos, positive_descriptors);
                      (doc_neg, negative_descriptors);
                      (doc_external_pos, external_positive_descriptors);
                      (doc_external_neg, external_negative_descriptors)] →
      (∀ u ty v, (u, ty, v) ∈ field doc ↔ set s !! (u, ty) = Some v) ∧
      NoDup (triple_key <$> field doc) ∧
      length (field doc) = size (set s).
Proof.
  eexists. split; [reflexivity|]. split.
  { cbn [get_state_bytes z_read]. by rewrite decide_True. }
  intros field set Hfs. rewrite !elem_of_cons, elem_of_nil in Hfs.
  destruct Hfs as [[= -> ->]|[[= -> ->]|[[= -> ->]|[[= -> ->]|[]]]]]; simpl;
    apply d_set_to_list_spec.
Qed.

(** ** The ledger over a session's life *)

Lemma call_exclusive c s :
  imports c = false → ledger_exclusive s → ledger_exclusive (after (call c s)).
Proof.
  intros Hc Hs. destruct c; simpl; try discriminate.
  - by apply external_descriptors_exclusive.
  - by apply adjudicate_exclusive.
  - by destruct (update_working_set_frame nn_index s) as (? & ? & ? & ->).
  - by destruct (refine_frame s) as [->|[? ->]].
  - by destruct (getter_frames s) as ([? ->] & _).
  - by destruct (getter_frames s) as (_ & (? & ? & ->) & _).
  - by destruct (getter_frames s) as (_ & _ & (? & ? & ->) & _).
  - by destruct (getter_frames s) as (_ & _ & _ & (? & ? & ->)).
  - split; simpl; set_solver.
  - done.
Qed.

(** X17: over any run of calls that loads no state archive, whatever else
    it calls, no element is both in the positive and in the negative set,
    and none is both in the external positive and in the external negative
    set. *)
Theorem ledger_exclusive_for_life (cs : list Call) (n : Z) (cfg : RankFn)
    (uid : string) :
  forallb (λ c, negb (imports c)) cs = true →
  ledger_exclusive (run cs (new_session n cfg uid)).1.
Proof.
  induction cs as [|c cs IH] using rev_ind; intros Hcs.
  { apply new_session_exclusive. }
  apply forallb_snoc in Hcs as [Hcs Hc].
  rewrite run_snoc. simpl. apply call_exclusive; [|by apply IH].
  by destruct (imports c).
Qed.

Lemma ledger_exclusive_for_life_witness :
  forallb (λ c, negb (imports c))
    (ex_ledger_calls ++ [CallUpdateWorkingSet ex_nn_index; CallRefine;
                         CallReset]) = true ∧
  ledger_exclusive
    (run (ex_ledger_calls ++ [CallUpdateWorkingSet ex_nn_index; CallRefine;
                              CallReset])
       (new_session 2 ex_rank "sid")).1.
Proof.
  split; [reflexivity|].
  exact (ledger_exclusive_for_life
           (ex_ledger_calls ++ [CallUpdateWorkingSet ex_nn_index; CallRefine;
                                CallReset]) 2 ex_rank "sid" eq_refl).
Defined.

Lemma ordered_results_ties_witness :
  results (run [CallAdjudicate (d_set_of_iterable [sc_A]) ∅ ∅ ∅;
                CallUpdateWorkingSet sc_nn_index; CallRefine]
             (new_session 2 sc_rank "sid")).1 =
    Some [(sc_C, Q2Qc (2 # 10)); (sc_B, Q2Qc (9 # 10))] ∧
  filter (λ t : Scored, t.2 = Q2Qc (9 # 10))
    (ordered_results
       (run [CallAdjudicate (d_set_of_iterable [sc_A]) ∅ ∅ ∅;
             CallUpdateWorkingSet sc_nn_index; CallRefine]
          (new_session 2 sc_rank "sid")).1).1 =
  filter (λ t : Scored, t.2 = Q2Qc (9 # 10))
    [(sc_C, Q2Qc (2 # 10)); (sc_B, Q2Qc (9 # 10))].
Proof.
  assert (results (run [CallAdjudicate (d_set_of_iterable [sc_A]) ∅ ∅ ∅;
                        CallUpdateWorkingSet sc_nn_index; CallRefine]
                     (new_session 2 sc_rank "sid")).1 =
          Some [(sc_C, Q2Qc (2 # 10)); (sc_B, Q2Qc (9 # 10))]) as Hr
    by (vm_compute; reflexivity).
  split; [exact Hr|].
  exact (ordered_results_ties
           [CallAdjudicate (d_set_of_iterable [sc_A]) ∅ ∅ ∅;
            CallUpdateWorkingSet sc_nn_index; CallRefine]
           2 sc_rank "sid" _ (Q2Qc (9 # 10)) Hr).
Defined.

(** X18: in every state a session can reach, not only right after a
    refinement, the three partial views hold between them exactly the items
    of the view of all results, and no element of the unadjudicated view is
    in the positive or in the negative view. *)
Theorem views_cover_all (cs : list Call) (n : Z) (cfg : RankFn)
    (uid : string) :
  let s := (run cs (new_session n cfg uid)).1 in
  let all := (ordered_results s).1 in
  let pos := (get_positive_adjudication_relevancy s).1 in
  let neg := (get_negative_adjudication_relevancy s).1 in
  let non := (get_unadjudicated_relevancy s).1 in
  (∀ t, t ∈ all ↔ t ∈ pos ∨ t ∈ neg ∨ t ∈ non) ∧
  (∀ t t', t ∈ pos → t' ∈ non → d_key t.1 ≠ d_key t'.1) ∧
  (∀ t t', t ∈ neg → t' ∈ non → d_key t.1 ≠ d_key t'.1).
Proof.
  intros s all pos neg non.
  assert (views_coherent s) as Hv.
  { apply run_views_coherent, new_session_coherent. }
  destruct (getters_filter s Hv) as (Hp & Hn & Hu).
  subst pos neg non. rewrite Hp, Hn, Hu. fold all.
  unfold in_pos_contrib, in_neg_contrib, in_no_contrib, d_set_in, d_set_or.
  split_and!.
  - intros t. rewrite !list_elem_of_filter.
    destruct (decide (d_key t.1 ∈ dom (rank_contrib_pos s
                        ∪ rank_contrib_pos_ext s)));
      destruct (decide (d_key t.1 ∈ dom (rank_contrib_neg s
                          ∪ rank_contrib_neg_ext s)));
      set_solver.
  - intros t t'. rewrite !list_elem_of_filter.
    intros [H1 _] [H2 _] Heq. rewrite Heq in H1. set_solver.
  - intros t t'. rewrite !list_elem_of_filter.
    intros [H1 _] [H2 _] Heq. rewrite Heq in H1. set_solver.
Qed.
